(** * CV language-quality scorer: text normalisation, issue filtering, scoring
      and position mapping (src/CVJobMatcher/CV_Language_score.py).

    A shallow embedding of the Python module.  A [str] is a list of Unicode
    code points, Python integers are [Z], Python floats are IEEE binary64
    ([PrimFloat]), optional attributes read with [getattr] are [option]s.

    The regular expressions of the module are written in a small regex type
    and run by a backtracking matcher with the greedy, leftmost semantics of
    Python's [re].  What Python takes from the Unicode character database
    (NFKC, the classes behind \w, \s, \d, [str.lower]) is an interface, class
    [Unicode]; its behaviour on ASCII is stated by [UnicodeLaws]. *)

From Stdlib Require Uint63 FloatAxioms SpecFloat.
From Stdlib Require Import PrimFloat.
From Stdlib Require Import String Ascii.
From Stdlib Require Import List Bool NArith ZArith Lia.
From Stdlib Require Import Sorted Permutation.
Import ListNotations.

Set Implicit Arguments.
Open Scope N_scope.
Open Scope list_scope.

(* ================================================================= *)
(** ** Python strings *)

Module Py.

(** A code point and a [str]. *)
Definition char := N.
Definition text := list char.

(** A string literal of the source, as code points (ASCII literals only). *)
Fixpoint str (s : string) : text :=
  match s with
  | EmptyString => []
  | String a s' => N_of_ascii a :: str s'
  end.

Definition LF : char := 10.
Definition CR : char := 13.

Fixpoint text_eqb (a b : text) : bool :=
  match a, b with
  | [], [] => true
  | x :: a', y :: b' => (x =? y) && text_eqb a' b'
  | _, _ => false
  end.

(** [x in xs] for a set or list of strings. *)
Definition mem (x : text) (xs : list text) : bool := existsb (text_eqb x) xs.

(** [len(s)] as a Python int. *)
Definition len (s : text) : Z := Z.of_nat (length s).

(** How a slice bound is read: a negative bound counts from the end, and
    every bound is clamped to [0, len]. *)
Definition bound (n i : Z) : Z :=
  if (i <? 0)%Z then Z.max 0 (n + i) else Z.min i n.

(** [s[a:b]] *)
Definition slice (s : text) (a b : Z) : text :=
  let a' := bound (len s) a in
  let b' := bound (len s) b in
  firstn (Z.to_nat (b' - a')) (skipn (Z.to_nat a') s).

(** [s[a:]] *)
Definition slice_from (s : text) (a : Z) : text :=
  skipn (Z.to_nat (bound (len s) a)) s.

(** Index of the first [c] in [s], counted from [i]. *)
Fixpoint index_from (c : char) (s : text) (i : Z) : option Z :=
  match s with
  | [] => None
  | x :: s' => if x =? c then Some i else index_from c s' (i + 1)%Z
  end.

(** Index of the last [c] in [s], counted from [i]. *)
Fixpoint rindex_from (c : char) (s : text) (i : Z) : option Z :=
  match s with
  | [] => None
  | x :: s' =>
      match rindex_from c s' (i + 1)%Z with
      | Some j => Some j
      | None => if x =? c then Some i else None
      end
  end.

(** [s.find(c, start)] for a one-character [c]: -1 when absent. *)
Definition find (s : text) (c : char) (start : Z) : Z :=
  let a := bound (len s) start in
  match index_from c (skipn (Z.to_nat a) s) a with
  | Some i => i
  | None => (-1)%Z
  end.

(** [s.rfind(c, start, stop)] for a one-character [c]: -1 when absent. *)
Definition rfind (s : text) (c : char) (start stop : Z) : Z :=
  let a := bound (len s) start in
  match rindex_from c (slice s start stop) a with
  | Some i => i
  | None => (-1)%Z
  end.

(** [s.count(c, start, stop)] for a one-character [c]. *)
Definition count (s : text) (c : char) (start stop : Z) : Z :=
  Z.of_nat (length (filter (N.eqb c) (slice s start stop))).

(** [s.replace(old, new)] for a one-character [old]. *)
Definition replace (old : char) (new : text) (s : text) : text :=
  flat_map (fun c => if c =? old then new else [c]) s.

(** [s.translate(str.maketrans(table))]: every code point that is a key of
    [table] is replaced by its entry. *)
Fixpoint lookup (c : char) (table : list (char * text)) : option text :=
  match table with
  | [] => None
  | (k, v) :: t => if c =? k then Some v else lookup c t
  end.

Definition translate (table : list (char * text)) (s : text) : text :=
  flat_map (fun c => match lookup c table with Some v => v | None => [c] end) s.

(** [c * n] for a one-character [c]: empty when [n <= 0]. *)
Definition times (c : char) (n : Z) : text := repeat c (Z.to_nat n).

(** [sep.join(parts)] *)
Fixpoint join (sep : text) (parts : list text) : text :=
  match parts with
  | [] => []
  | [p] => p
  | p :: rest => p ++ sep ++ join sep rest
  end.

(** The line boundaries of [str.splitlines]: LF, VT, FF, CR, FS, GS, RS,
    NEL, LINE SEPARATOR and PARAGRAPH SEPARATOR (CR LF counts once). *)
Definition is_linebreak (c : char) : bool :=
  (c =? 10) || (c =? 11) || (c =? 12) || (c =? 13) || (c =? 28) || (c =? 29)
  || (c =? 30) || (c =? 133) || (c =? 8232) || (c =? 8233).

(** [s.splitlines()]; [after_cr] tells that the previous code point was a CR,
    so that a LF here belongs to the same boundary. *)
Fixpoint splitlines_from (after_cr : bool) (s : text) : list text :=
  match s with
  | [] => []
  | c :: s' =>
      if after_cr && (c =? LF) then splitlines_from false s'
      else if is_linebreak c then [] :: splitlines_from (c =? CR) s'
      else match splitlines_from false s' with
           | [] => [[c]]
           | l :: ls => (c :: l) :: ls
           end
  end.

Definition splitlines (s : text) : list text := splitlines_from false s.

(** [s.lstrip(chars)], [s.rstrip(chars)] with the set given as a predicate. *)
Fixpoint lstrip_of (p : char -> bool) (s : text) : text :=
  match s with
  | [] => []
  | c :: s' => if p c then lstrip_of p s' else s
  end.

Definition rstrip_of (p : char -> bool) (s : text) : text :=
  rev (lstrip_of p (rev s)).

Definition strip_of (p : char -> bool) (s : text) : text :=
  rstrip_of p (lstrip_of p s).

End Py.
Import Py.

(* ================================================================= *)
(** ** The Unicode character database *)

(** What the module takes from Python's Unicode tables. *)
Class Unicode := {
  (** [unicodedata.normalize("NFKC", s)] *)
  nfkc : text -> text;
  (** the class \w of [re] on [str] patterns: alphanumerics and underscore *)
  isword : char -> bool;
  (** the class \s of [re], which is also what [str.strip()] removes *)
  isspace : char -> bool;
  (** the class \d of [re]: decimal digits *)
  isdigit : char -> bool;
  (** [s.lower()] *)
  lower : text -> text
}.

Definition is_ascii (c : char) : bool := c <? 128.

Definition in_range (lo hi c : char) : bool := (lo <=? c) && (c <=? hi).

(** The ASCII part of the database. *)
Definition ascii_isdigit (c : char) : bool := in_range 48 57 c.

Definition ascii_isword (c : char) : bool :=
  in_range 97 122 c || in_range 65 90 c || in_range 48 57 c || (c =? 95).

Definition ascii_isspace (c : char) : bool :=
  in_range 9 13 c || in_range 28 32 c.

Definition ascii_lower_char (c : char) : char :=
  if in_range 65 90 c then c + 32 else c.

(** The database cut down to ASCII: exact on texts of code points below 128,
    where NFKC changes nothing. *)
Definition ascii_unicode : Unicode := {|
  nfkc := fun s => s;
  isword := ascii_isword;
  isspace := ascii_isspace;
  isdigit := ascii_isdigit;
  lower := map ascii_lower_char
|}.

(** What is assumed of a database: on ASCII it is [ascii_unicode]. *)
Class UnicodeLaws (U : Unicode) : Prop := {
  nfkc_ascii : forall s, forallb is_ascii s = true -> nfkc s = s;
  isword_ascii : forall c, is_ascii c = true -> isword c = ascii_isword c;
  isspace_ascii : forall c, is_ascii c = true -> isspace c = ascii_isspace c;
  isdigit_ascii : forall c, is_ascii c = true -> isdigit c = ascii_isdigit c;
  lower_ascii : forall s, forallb is_ascii s = true ->
                          lower s = map ascii_lower_char s
}.

(* ================================================================= *)
(** ** Regular expressions *)

Module Re.

(** The fragment of [re] syntax the module uses.  Repetition is over a
    single character class, as in every pattern of the source. *)
Inductive regex : Type :=
| Cls (p : char -> bool)            (** one code point of a class *)
| Rep (p : char -> bool) (n : nat)  (** [p{n,}], greedy; [p*] and [p+] *)
| Opt (p : char -> bool)            (** [p?], greedy *)
| Grp (r : regex)                   (** a capturing group *)
| Seq (r1 r2 : regex).              (** concatenation *)

Definition Chr (c : char) : regex := Cls (N.eqb c).

(** A literal string. *)
Fixpoint Lit (s : text) (r : regex) : regex :=
  match s with
  | [] => r
  | c :: s' => Seq (Chr c) (Lit s' r)
  end.

Section Matcher.
Variable A : Type.

(** Greedy [p{n,}] against [s], then the continuation [k] on what is left:
    the longest repetition is tried first, then shorter ones. *)
Fixpoint rep (p : char -> bool) (n : nat) (s : text)
         (k : text -> option A) : option A :=
  let stop := match n with O => k s | S _ => None end in
  match s with
  | [] => stop
  | c :: s' =>
      if p c then
        match rep p (pred n) s' k with
        | Some a => Some a
        | None => stop
        end
      else stop
  end.

(** Backtracking match of [r] at the start of [s]; [gs] are the groups
    captured so far, [k] is the rest of the pattern. *)
Fixpoint run (r : regex) (s : text) (gs : list text)
         (k : text -> list text -> option A) : option A :=
  match r with
  | Cls p =>
      match s with
      | c :: s' => if p c then k s' gs else None
      | [] => None
      end
  | Rep p n => rep p n s (fun s' => k s' gs)
  | Opt p =>
      match s with
      | c :: s' =>
          if p c then
            match k s' gs with
            | Some a => Some a
            | None => k s gs
            end
          else k s gs
      | [] => k s gs
      end
  | Grp r1 =>
      run r1 s gs
          (fun s' gs' => k s' (gs' ++ [firstn (length s - length s') s]))
  | Seq r1 r2 => run r1 s gs (fun s' gs' => run r2 s' gs' k)
  end.
End Matcher.

(** [pattern.match(s)]: the length of the match at the start of [s] and its
    groups, or [None]. *)
Definition match_at (r : regex) (s : text) : option (nat * list text) :=
  run r s [] (fun s' gs => Some (length s - length s', gs))%nat.

(** A replacement template: literal code points and group references. *)
Inductive piece : Type :=
| Ref (i : nat)     (** \i, groups are numbered from 1 *)
| Plain (c : char).

Definition expand (repl : list piece) (gs : list text) : text :=
  flat_map (fun p => match p with
                     | Ref i => nth (pred i) gs []
                     | Plain c => [c]
                     end) repl.

(** [re.sub(r, repl, s)]: leftmost non-overlapping matches are replaced.
    [skip] is the number of code points still covered by the last match.
    Every pattern of the module consumes at least one code point
    ([patterns_consume]), so the rules of [re] for empty matches play no
    part: a match of length 0 is treated as no match. *)
Fixpoint sub_from (r : regex) (repl : list piece) (skip : nat) (s : text)
  : text :=
  match s with
  | [] => []
  | c :: s' =>
      match skip with
      | S n => sub_from r repl n s'
      | O =>
          match match_at r s with
          | Some (S n, gs) => expand repl gs ++ sub_from r repl n s'
          | _ => c :: sub_from r repl 0 s'
          end
      end
  end.

Definition sub (r : regex) (repl : list piece) (s : text) : text :=
  sub_from r repl 0 s.

(** [re.findall(r, s)] for a pattern without groups: the matched texts. *)
Fixpoint findall_from (r : regex) (skip : nat) (s : text) : list text :=
  match s with
  | [] => []
  | c :: s' =>
      match skip with
      | S n => findall_from r n s'
      | O =>
          match match_at r s with
          | Some (S n, _) => firstn (S n) s :: findall_from r n s'
          | _ => findall_from r 0 s'
          end
      end
  end.

Definition findall (r : regex) (s : text) : list text := findall_from r 0 s.

(** [re.search(r, s)] as a truth value. *)
Fixpoint search (r : regex) (s : text) : bool :=
  match s with
  | [] => false
  | c :: s' =>
      match match_at r s with
      | Some (S _, _) => true
      | _ => search r s'
      end
  end.

End Re.

(* ================================================================= *)
(** ** Config *)

(** [float(n)] for a length; exact below 2^53. *)
Definition float_of_nat (n : nat) : float :=
  PrimFloat.of_uint63 (Uint63.of_Z (Z.of_nat n)).

(** [max(a, b)] on floats: [b] when [b > a], else [a]. *)
Definition float_max (a b : float) : float :=
  if PrimFloat.ltb a b then b else a.

Definition ERROR_WEIGHT : float := 5%float.

Definition IGNORE_RULES : list text :=
  [ str "WHITESPACE_RULE";
    str "COMMA_PARENTHESIS_WHITESPACE";
    str "PUNCTUATION_PARAGRAPH_END";
    str "UPPERCASE_SENTENCE_START";
    str "HYPHENATION" ].

Definition LIG_MAP : list (char * text) :=
  [ (0xfb00, str "ff");  (0xfb01, str "fi");  (0xfb02, str "fl");
    (0xfb03, str "ffi"); (0xfb04, str "ffl");
    (0xf001, str "fi");  (0xf002, str "fl") ].

Definition UNWRAP_LINEBREAK_HYPHENS : bool := true.

(* ================================================================= *)
(** ** Cleaning *)

Section Cleaning.
Context {U : Unicode}.

(** \S *)
Definition nonspace (c : char) : bool := negb (isspace c).

(** [(\w)-\s*\n(\w)] *)
Definition hyphen_break : Re.regex :=
  Re.Seq (Re.Grp (Re.Cls isword))
    (Re.Seq (Re.Chr 45)
       (Re.Seq (Re.Rep isspace 0)
          (Re.Seq (Re.Chr LF) (Re.Grp (Re.Cls isword))))).

(** The replacement [\1-\2]. *)
Definition hyphen_joined : list Re.piece :=
  [Re.Ref 1; Re.Plain 45; Re.Ref 2].

Definition normalize_text (s : text) : text :=
  let s := nfkc s in
  let s := translate LIG_MAP s in
  let s := replace 0xfeff [] (replace 0x200b [] (replace 0xad [] s)) in
  if UNWRAP_LINEBREAK_HYPHENS then Re.sub hyphen_break hyphen_joined s
  else s.

(** [\S+@\S+] *)
Definition email : Re.regex :=
  Re.Seq (Re.Rep nonspace 1) (Re.Seq (Re.Chr 64) (Re.Rep nonspace 1)).

(** [https?://\S+] *)
Definition url : Re.regex :=
  Re.Lit (str "http")
    (Re.Seq (Re.Opt (N.eqb 115)) (Re.Lit (str "://") (Re.Rep nonspace 1))).

(** The class [[\d\-\s\(\)]] *)
Definition phone_inner (c : char) : bool :=
  isdigit c || (c =? 45) || isspace c || (c =? 40) || (c =? 41).

(** [\+?\d[\d\-\s\(\)]{6,}\d] *)
Definition phone : Re.regex :=
  Re.Seq (Re.Opt (N.eqb 43))
    (Re.Seq (Re.Cls isdigit)
       (Re.Seq (Re.Rep phone_inner 6) (Re.Cls isdigit))).

(** [[a-z]] *)
Definition lowercase : Re.regex := Re.Cls (in_range 97 122).

Definition blank : list Re.piece := [Re.Plain 32].

(** The three substitutions of [strip_noise], on normalised text. *)
Definition substitute (text : Py.text) : Py.text :=
  let text := Re.sub email blank text in
  let text := Re.sub url blank text in
  Re.sub phone blank text.

Definition strip_noise (text : Py.text) : Py.text :=
  let text := normalize_text text in
  let text := substitute text in
  let lines := splitlines text in
  join [LF] (filter (Re.search lowercase) lines).

End Cleaning.

(* ================================================================= *)
(** ** Pretty print *)

(** A match of the checker.  Every attribute is read with [getattr] and a
    default, so each may be missing. *)
Record Match : Type := {
  ruleId : option text;
  offset : option Z;
  errorLength : option Z;
  context : option text;
  message : option text;
  replacements : option (list text);
  ruleIssueType : option text
}.

Definition getattr {A} (field : option A) (default : A) : A :=
  match field with Some v => v | None => default end.

(** [x or d] on ints. *)
Definition or_int (x d : Z) : Z := if (x =? 0)%Z then d else x.

(** [x or d] on strings and lists. *)
Definition or_list {A} (x d : list A) : list A :=
  match x with [] => d | _ => x end.

Definition _idx_to_line_col (text : Py.text) (idx : Z) : Z * Z :=
  let line := (count text LF 0 idx + 1)%Z in
  let last_nl := rfind text LF 0 idx in
  let col := (idx - (last_nl + 1) + 1)%Z in
  (line, col).

(** One printed issue: what [pretty_print_errors] writes for it, before the
    message is wrapped to the terminal width. *)
Record Block : Type := {
  b_index : nat;
  b_line : Z;
  b_col : Z;
  b_rule : text;
  b_line_start : Z;
  b_line_end : Z;
  b_line_text : text;
  b_caret : text;
  b_message : text;
  b_suggestions : text;
  b_type : option text
}.

Definition is_crlf (c : char) : bool := (c =? CR) || (c =? LF).

Definition render (text : Py.text) (i : nat) (m : Match) : Block :=
  let offset := getattr (offset m) 0%Z in
  let err_len := or_int (getattr (errorLength m) 1%Z) 1%Z in
  let rule_id := getattr (ruleId m) (str "<rule>") in
  let msg := getattr (message m) [] in
  let sugg_list := getattr (replacements m) [] in
  let suggestions :=
    or_list (join (str ", ") (firstn 5 sugg_list)) (str "<none>") in
  let '(line, col) := _idx_to_line_col text offset in
  let line_start := (rfind text LF 0 offset + 1)%Z in
  let line_end := find text LF offset in
  let line_end := if (line_end =? -1)%Z then len text else line_end in
  let line_text := rstrip_of is_crlf (slice text line_start line_end) in
  let caret :=
    times 32 (offset - line_start) ++ times 94 (Z.max 1 err_len) in
  let issue_type := getattr (ruleIssueType m) [] in
  {| b_index := i; b_line := line; b_col := col; b_rule := rule_id;
     b_line_start := line_start; b_line_end := line_end;
     b_line_text := line_text; b_caret := caret;
     b_message := str "    Message: " ++ msg;
     b_suggestions := suggestions;
     b_type := match issue_type with [] => None | _ => Some issue_type end |}.

(** [enumerate(errors, 1)] *)
Fixpoint render_all (text : Py.text) (i : nat) (errors : list (Py.text * Match))
  : list Block :=
  match errors with
  | [] => []
  | (_, m) :: rest => render text i m :: render_all text (S i) rest
  end.

Definition pretty_print_errors (errors : list (Py.text * Match)) (text : Py.text)
  : list Block := render_all text 1 errors.

(* ================================================================= *)
(** ** Scoring *)

(** [list.sort(key=...)]: a stable sort by an integer key. *)
Section Sort.
Variable A : Type.
Variable key : A -> Z.

Fixpoint insert_by (x : A) (l : list A) : list A :=
  match l with
  | [] => [x]
  | y :: l' => if (key x <=? key y)%Z then x :: l else y :: insert_by x l'
  end.

Fixpoint sort_by (l : list A) : list A :=
  match l with
  | [] => []
  | x :: l' => insert_by x (sort_by l')
  end.
End Sort.

(** What [compute_language_score] prints. *)
Record Report : Type := {
  errors : list (text * Match);
  wc : nat;
  err_per_100 : float;
  score : float;
  printed : list Block
}.

Section Scoring.
Context {U : Unicode}.

(** [\w+] *)
Definition word : Re.regex := Re.Rep isword 1.

(** [str.strip()] *)
Definition strip (s : text) : text := strip_of isspace s.

(** The snippet of a match, as the loop extracts it. *)
Definition snippet_of (text : Py.text) (m : Match) : Py.text :=
  let offset := getattr (offset m) 0%Z in
  let err_len := or_int (getattr (errorLength m) 0%Z) 0%Z in
  if negb (err_len =? 0)%Z then
    strip (slice text offset (offset + err_len))
  else
    or_list (strip (getattr (context m) []))
            (strip (slice text offset (offset + 40))).

(** [getattr(m, "ruleId", None) in IGNORE_RULES] *)
Definition ignored (m : Match) : bool :=
  match ruleId m with
  | Some r => mem r IGNORE_RULES
  | None => false
  end.

(** The loop over [raw_matches]. *)
Fixpoint collect (text : Py.text) (allowed_lower : list Py.text)
         (raw_matches : list Match) : list (Py.text * Match) :=
  match raw_matches with
  | [] => []
  | m :: rest =>
      let continue := collect text allowed_lower rest in
      if ignored m then continue
      else
        let snippet := snippet_of text m in
        if mem (lower snippet) allowed_lower then continue
        else (snippet, m) :: continue
  end.

(** The key of the sort: [getattr(x[1], "offset", 0)]. *)
Definition offset_key (x : text * Match) : Z := getattr (offset (snd x)) 0%Z.

(** [raw_matches] is what [tool.check(text)] returned.  With no word the
    density is the int 0, which the product with [ERROR_WEIGHT] and the
    format [.1f] read as 0.0. *)
Definition compute_language_score (text : Py.text) (allowed_lower : list Py.text)
           (raw_matches : list Match) : Report :=
  let errors := sort_by offset_key (collect text allowed_lower raw_matches) in
  let words := Re.findall word text in
  let wc := length words in
  let err_per_100 :=
    match wc with
    | O => 0%float
    | _ => PrimFloat.mul
             (PrimFloat.div (float_of_nat (length errors)) (float_of_nat wc))
             100%float
    end in
  let score :=
    float_max 0%float
      (PrimFloat.sub 100%float (PrimFloat.mul ERROR_WEIGHT err_per_100)) in
  {| errors := errors; wc := wc; err_per_100 := err_per_100; score := score;
     printed := match errors with
                | [] => []
                | _ => pretty_print_errors errors text
                end |}.

End Scoring.

(* ================================================================= *)
(** ** Vocabulary of the properties *)

Module ReSem.
Import Re.

(** The texts a pattern can consume, whatever the order of the search. *)
Inductive den : regex -> text -> Prop :=
| den_cls : forall (p : char -> bool) c, p c = true -> den (Cls p) [c]
| den_rep : forall (p : char -> bool) n w,
    forallb p w = true -> (n <= length w)%nat -> den (Rep p n) w
| den_opt_skip : forall p, den (Opt p) []
| den_opt_take : forall (p : char -> bool) c, p c = true -> den (Opt p) [c]
| den_grp : forall r w, den r w -> den (Grp r) w
| den_seq : forall r1 r2 w1 w2,
    den r1 w1 -> den r2 w2 -> den (Seq r1 r2) (w1 ++ w2).

(** The least number of code points a pattern consumes. *)
Fixpoint min_len (r : regex) : nat :=
  match r with
  | Cls _ => 1
  | Rep _ n => n
  | Opt _ => 0
  | Grp r1 => min_len r1
  | Seq r1 r2 => min_len r1 + min_len r2
  end.

(** Two patterns of the same shape whose classes coincide on the code
    points that satisfy [P]. *)
Inductive agree (P : char -> bool) : regex -> regex -> Prop :=
| agree_cls : forall p q,
    (forall c, P c = true -> p c = q c) -> agree P (Cls p) (Cls q)
| agree_rep : forall p q n,
    (forall c, P c = true -> p c = q c) -> agree P (Rep p n) (Rep q n)
| agree_opt : forall p q,
    (forall c, P c = true -> p c = q c) -> agree P (Opt p) (Opt q)
| agree_grp : forall r1 r2, agree P r1 r2 -> agree P (Grp r1) (Grp r2)
| agree_seq : forall r1 r2 q1 q2,
    agree P r1 q1 -> agree P r2 q2 -> agree P (Seq r1 r2) (Seq q1 q2).

End ReSem.

(** [o] is [s] with tokens replaced by [new], from left to right: a code
    point is copied only where no token starts, and what is replaced is a
    token. *)
Inductive Replaced (tok : text -> Prop) (new : text) : text -> text -> Prop :=
| Replaced_end : Replaced tok new [] []
| Replaced_copy : forall c s o,
    (forall t rest, tok t -> c :: s <> t ++ rest) ->
    Replaced tok new s o -> Replaced tok new (c :: s) (c :: o)
| Replaced_token : forall t rest o,
    tok t -> Replaced tok new rest o -> Replaced tok new (t ++ rest) (new ++ o).

(** The number of newline characters of a text. *)
Definition newlines_in (s : text) : Z := Z.of_nat (count_occ N.eq_dec s LF).

(** The index of the last newline before position [idx], or -1. *)
Fixpoint last_newline_before (s : text) (idx : nat) : Z :=
  match idx with
  | O => (-1)%Z
  | S i => if nth i s 0 =? LF then Z.of_nat i else last_newline_before s i
  end.

(** The number of maximal runs of code points of the class [p] in a text;
    [inside] tells that the previous code point was in [p]. *)
Fixpoint count_runs (p : char -> bool) (inside : bool) (s : text) : nat :=
  match s with
  | [] => 0
  | c :: s' =>
      if p c then (if inside then 0 else 1) + count_runs p true s'
      else count_runs p false s'
  end.

(** The length of the run of [p] at the start of a text. *)
Fixpoint run_length (p : char -> bool) (s : text) : nat :=
  match s with
  | c :: s' => if p c then S (run_length p s') else 0
  | [] => 0
  end.

(** A code point that is no key of the ligature table. *)
Definition no_ligature (c : char) : bool :=
  match lookup c LIG_MAP with Some _ => false | None => true end.

(** A code point other than [old]. *)
Definition differs (old c : char) : bool := negb (c =? old).

(** A text without any line boundary. *)
Definition no_break (l : text) : bool :=
  forallb (fun c => negb (is_linebreak c)) l.

(** A text with a lowercase ASCII letter. *)
Definition has_lowercase (l : text) : bool := existsb (in_range 97 122) l.

(** The number of ASCII digits of a text. *)
Definition digits_in (t : text) : nat := length (filter ascii_isdigit t).

Section SortVocabulary.
Variable A : Type.
Variable key : A -> Z.

(** The order of the sort. *)
Definition key_le (a b : A) : Prop := (key a <= key b)%Z.

(** The elements of a list at one key, in their order. *)
Definition at_key (k : Z) (l : list A) : list A :=
  filter (fun a => (key a =? k)%Z) l.
End SortVocabulary.

Section Vocabulary.
Context {U : Unicode}.

(** A match that the loop keeps. *)
Definition retained (text : Py.text) (allowed_lower : list Py.text)
           (m : Match) : bool :=
  negb (ignored m)
  && negb (mem (lower (snippet_of text m)) allowed_lower).

(** The flagged snippet in the words of the specification: the substring at
    [offset, offset + length) when the length is positive, otherwise the
    context string of the checker when it has one that is not blank,
    otherwise the 40 code points from the offset. *)
Definition flagged_snippet (text : Py.text) (m : Match) : Py.text :=
  let offset := getattr (offset m) 0%Z in
  let length := getattr (errorLength m) 0%Z in
  if (0 <? length)%Z then slice text offset (offset + length)
  else match strip (getattr (context m) []) with
       | [] => slice text offset (offset + 40)
       | _ => getattr (context m) []
       end.

(** A snippet matches an entry of the allow-list without regard to case. *)
Definition matches_entry (snippet : text) (allowed : list text) : bool :=
  existsb (fun e => text_eqb (lower snippet) (lower e)) allowed.

(** The text before the hyphens are unwrapped. *)
Definition folded (s : text) : text :=
  replace 0xfeff [] (replace 0x200b [] (replace 0xad [] (translate LIG_MAP (nfkc s)))).

(** What the phone pattern takes: an optional '+', a digit, six or more
    code points each a digit, '-', whitespace, '(' or ')', and a digit. *)
Definition phone_token (t : text) : Prop :=
  exists plus d1 mid d2,
    t = plus ++ d1 :: mid ++ [d2]
    /\ (plus = [] \/ plus = [43])
    /\ isdigit d1 = true
    /\ forallb phone_inner mid = true
    /\ (6 <= length mid)%nat
    /\ isdigit d2 = true.
End Vocabulary.

(** *** Inputs of the examples *)

Definition abc_def_ghi : text :=
  str "abc" ++ [LF] ++ str "def" ++ [LF] ++ str "ghi".



(** A text without words and one reported issue. *)
Definition no_words : text := str "--- ***".

Definition some_issue : Match :=
  {| ruleId := Some (str "DASH_RULE"); offset := Some 0%Z;
     errorLength := Some 3%Z; context := None; message := None;
     replacements := None; ruleIssueType := None |}.

(** An issue on a span that begins with a blank. *)
Definition numpy_text : text := str " numpy rocks".

Definition numpy_issue : Match :=
  {| ruleId := Some (str "MORFOLOGIK_RULE_EN_US"); offset := Some 0%Z;
     errorLength := Some 6%Z; context := None; message := None;
     replacements := None; ruleIssueType := None |}.

Definition daily_text : text := str "We use NumPy daily".

Definition daily_issue : Match :=
  {| ruleId := Some (str "MORFOLOGIK_RULE_EN_US"); offset := Some 7%Z;
     errorLength := Some 5%Z; context := None; message := None;
     replacements := None; ruleIssueType := None |}.

Definition broken_twice : text :=
  str "a-" ++ [LF] ++ str "b-" ++ [LF] ++ str "c".

Definition fast_evolving : text := str "fast-" ++ [LF] ++ str "evolving".



Definition issue_at (o : Z) (rule : string) : Match :=
  {| ruleId := Some (str rule); offset := Some o; errorLength := Some 1%Z;
     context := None; message := None; replacements := None;
     ruleIssueType := None |}.

Definition unordered : list Match :=
  [issue_at 9 "B"; issue_at 4 "A"; issue_at 9 "C"; issue_at 0 "WHITESPACE_RULE"].

(* ================================================================= *)
(** ** Vocabulary of the further properties *)

Section MoreVocabulary.
Context {U : Unicode}.

(** The test of the loop on a collected pair, for the allow-list [allowed]. *)
Definition not_allowed (allowed : list text) (x : text * Match) : bool :=
  negb (mem (lower (fst x)) allowed).
End MoreVocabulary.

(** The offset at which line [k] of the joined lines [ls] starts: the
    lengths of the lines before it, each with its newline. *)
Definition with_newline (l : text) : text := l ++ [LF].

Definition is_newline (c : char) : bool := LF =? c.

Definition line_offset (ls : list text) (k : nat) : nat :=
  length (concat (map with_newline (firstn k ls))).

(** Block [a] is not after block [b] in reading order. *)
Definition reading_order (a b : Block) : Prop :=
  (b_line a < b_line b)%Z
  \/ (b_line a = b_line b /\ (b_col a <= b_col b)%Z).

(** Two lines with CR LF and CR boundaries. *)
Definition crlf_lines : text :=
  str "first line" ++ [CR; LF] ++ str "second line" ++ [CR].

(* ================================================================= *)
(** ** The command line of the scorer and its caller *)

(** [sub in s] for strings. *)
Fixpoint prefix_of (p s : text) : bool :=
  match p, s with
  | [], _ => true
  | a :: p', b :: s' => (a =? b) && prefix_of p' s'
  | _ :: _, [] => false
  end.

Fixpoint contains (sub s : text) : bool :=
  prefix_of sub s
  || match s with
     | [] => false
     | _ :: s' => contains sub s'
     end.

(** [l[-1]]: [None] stands for the IndexError on an empty list. *)
Fixpoint last_item (A : Type) (l : list A) : option A :=
  match l with
  | [] => None
  | [x] => Some x
  | _ :: l' => last_item l'
  end.

(** [s.split(c, 1)[0]] for a one-character [c]: what stands before the
    first [c]. *)
Fixpoint before_first (c : char) (s : text) : text :=
  match s with
  | [] => []
  | x :: s' => if x =? c then [] else x :: before_first c s'
  end.

Section CommandLine.
Context {U : Unicode}.

(** [s.split()]: the maximal runs of code points that are not whitespace. *)
Fixpoint split_ws (s : text) : list text :=
  match s with
  | [] => []
  | c :: s' =>
      if isspace c then split_ws s'
      else match s' with
           | [] => [[c]]
           | c' :: _ =>
               if isspace c' then [c] :: split_ws s'
               else match split_ws s' with
                    | t :: ts => (c :: t) :: ts
                    | [] => [[c]]
                    end
           end
  end.

(** What spaCy, pkg_resources and LanguageTool give: the entities of a text,
    the project names of the installed distributions, the matches of a
    text. *)
Variable extract_entities : text -> list text.
Variable working_set : list text.
Variable check : text -> list Match.

Definition get_installed_libraries : list text := map lower working_set.

(** The allow-list that [main] builds from the raw text. *)
Definition allow_list (raw : text) : list text :=
  let allowed := extract_entities raw in
  let allowed_lower := map lower allowed in
  let allowed_lower := allowed_lower ++ get_installed_libraries in
  allowed_lower ++ [lower (str "yourTerm"); lower (str "AnotherAcronym")].

(** [main], from the text of the file on. *)
Definition main (raw : text) : Report :=
  let allowed_lower := allow_list raw in
  let clean := strip_noise raw in
  compute_language_score clean allowed_lower (check clean).

(** How Python writes an int and a float with one decimal, and how it
    reads a float ([None]: ValueError). *)
Variable format_int : nat -> text.
Variable format_1f : float -> text.
Variable float_of_text : text -> option float.

(** The four summary lines that [compute_language_score] prints, and the
    empty line after them. *)
Definition summary (r : Report) : list text :=
  [ str "Word Count:               " ++ format_int (wc r);
    str "Grammar/Spelling Errors:  " ++ format_int (length (errors r));
    str "Errors per 100 words:     " ++ format_1f (err_per_100 r);
    str "Language Quality Score:   " ++ format_1f (score r) ++ str "/100";
    [] ].

(** The standard output of the scorer: each printed line with its newline,
    then what [pretty_print_errors] writes. *)
Definition stdout (r : Report) (rest : text) : text :=
  concat (map with_newline (summary r)) ++ rest.

(** [extract_pct] of CV_score_quality.py over the lines of the output;
    [None] stands for the IndexError of [line.split()[-1]]. *)
Fixpoint extract_pct_lines (lines : list text) (marker : text)
  : option float :=
  match lines with
  | [] => Some 0%float
  | line :: rest =>
      if contains marker line then
        match last_item (split_ws line) with
        | None => None
        | Some token =>
            let token :=
              if existsb (N.eqb 47) token then before_first 47 token
              else token in
            let token := rstrip_of (N.eqb 37) token in
            match float_of_text token with
            | Some v => Some v
            | None => Some 0%float
            end
        end
      else extract_pct_lines rest marker
  end.

Definition extract_pct (output marker : text) : option float :=
  extract_pct_lines (splitlines output) marker.
End CommandLine.

(** A code point that the number formats write: a digit, a point, a sign,
    or a letter of "inf" and "nan". *)
Definition numeric_char (c : char) : bool :=
  in_range 48 57 c || (c =? 46) || (c =? 45) || (c =? 43)
  || (c =? 105) || (c =? 110) || (c =? 102) || (c =? 97).

(** [w] occurs in [t]. *)
Definition occurs (w t : text) : Prop := exists a b, t = a ++ w ++ b.

Section SpaceFree.
Context {U : Unicode}.

(** A pattern all of whose classes exclude whitespace. *)
Fixpoint classes_nonspace (r : Re.regex) : Prop :=
  match r with
  | Re.Cls p | Re.Rep p _ | Re.Opt p =>
      forall c, p c = true -> isspace c = false
  | Re.Grp r1 => classes_nonspace r1
  | Re.Seq r1 r2 => classes_nonspace r1 /\ classes_nonspace r2
  end.
End SpaceFree.

(** No text of the pattern occurs in the text. *)
Definition free_of (r : Re.regex) (t : text) : Prop :=
  forall w, ReSem.den r w -> ~ occurs w t.

(** A line with an address and a link. *)
Definition mail_and_link : text :=
  str "write to jane@example.org or see https://example.org/cv today".

(* ================================================================= *)
(** ** What the matcher computes *)

Module ReFacts.
Import Re ReSem.

Section Soundness.
Variable A : Type.

Lemma rep_sound (p : char -> bool) (k : text -> option A) a :
  forall s n, rep p n s k = Some a ->
  exists w s', s = w ++ s' /\ forallb p w = true /\ (n <= length w)%nat
               /\ k s' = Some a.
Proof.
  induction s as [|c s IH]; intros n H; simpl in H.
  - destruct n; [|discriminate]. exists [], []. auto.
  - destruct (p c) eqn:Hc.
    + destruct (rep p (pred n) s k) eqn:Hr.
      * inversion H; subst a0. destruct (IH _ Hr) as (w & s' & -> & Hw & Hn & Hk).
        exists (c :: w), s'. simpl. rewrite Hc, Hw. repeat split; auto. lia.
      * destruct n; [|discriminate]. exists [], (c :: s). auto.
    + destruct n; [|discriminate]. exists [], (c :: s). auto.
Qed.

Lemma rep_complete (p : char -> bool) (k : text -> option A) s' :
  k s' <> None ->
  forall w n, forallb p w = true -> (n <= length w)%nat ->
  rep p n (w ++ s') k <> None.
Proof.
  intros Hk. induction w as [|c w IH]; intros n Hw Hn; simpl in *.
  - assert (n = O) by lia. subst n.
    destruct s' as [|c s]; simpl; auto.
    destruct (p c); auto. destruct (rep p 0 s k); auto. discriminate.
  - apply andb_true_iff in Hw as [Hc Hw]. rewrite Hc.
    specialize (IH (pred n) Hw ltac:(lia)).
    destruct (rep p (pred n) (w ++ s') k); [discriminate | contradiction].
Qed.

Lemma run_sound :
  forall r s gs (k : text -> list text -> option A) a,
  run r s gs k = Some a ->
  exists w s' gs', s = w ++ s' /\ den r w /\ k s' gs' = Some a
                   /\ forall g, In g gs' -> In g gs \/ incl g w.
Proof.
  induction r as [p | p n | p | r IH | r1 IH1 r2 IH2]; intros s gs k a H;
    simpl in H.
  - destruct s as [|c s]; [discriminate|]. destruct (p c) eqn:Hc; [|discriminate].
    exists [c], s, gs. repeat split; auto. now constructor.
  - apply rep_sound in H as (w & s' & -> & Hw & Hn & Hk).
    exists w, s', gs. repeat split; auto. now constructor.
  - assert (Hskip : k s gs = Some a ->
                    exists w s' gs', s = w ++ s' /\ den (Opt p) w
                      /\ k s' gs' = Some a
                      /\ forall g, In g gs' -> In g gs \/ incl g w).
    { intros Hk. exists [], s, gs. repeat split; auto. constructor. }
    destruct s as [|c s]; auto. destruct (p c) eqn:Hc; auto.
    destruct (k s gs) eqn:Hk; auto. inversion H; subst a0.
    exists [c], s, gs. repeat split; auto. now constructor.
  - apply IH in H as (w & s' & gs' & -> & Hd & Hk & Hg).
    rewrite length_app, Nat.add_sub, firstn_app, Nat.sub_diag, firstn_all in Hk.
    simpl in Hk. rewrite app_nil_r in Hk.
    exists w, s', (gs' ++ [w]). repeat split; auto.
    + now constructor.
    + intros g Hin. apply in_app_iff in Hin as [Hin | [<- | []]]; auto.
      right. apply incl_refl.
  - apply IH1 in H as (w1 & s1 & gs1 & -> & Hd1 & Hk1 & Hg1).
    apply IH2 in Hk1 as (w2 & s2 & gs2 & -> & Hd2 & Hk2 & Hg2).
    exists (w1 ++ w2), s2, gs2. rewrite <- app_assoc. repeat split; auto.
    + now constructor.
    + intros g Hin. destruct (Hg2 g Hin) as [Hin1 | Hin2].
      * destruct (Hg1 g Hin1); auto. right. now apply incl_appl.
      * right. now apply incl_appr.
Qed.

Lemma run_complete :
  forall r w, den r w ->
  forall s' gs (k : text -> list text -> option A),
  (forall gs', k s' gs' <> None) -> run r (w ++ s') gs k <> None.
Proof.
  induction 1 as [p c Hc | p n w Hw Hn | p | p c Hc | r w _ IH
                 | r1 r2 w1 w2 _ IH1 _ IH2]; intros s' gs k Hk; simpl.
  - rewrite Hc. apply Hk.
  - apply rep_complete; auto.
  - destruct s' as [|c s]; auto. destruct (p c); auto.
    destruct (k s gs); auto. discriminate.
  - rewrite Hc. destruct (k s' gs) eqn:E; [discriminate | now apply Hk in E].
  - apply IH. intros gs'. apply Hk.
  - rewrite <- app_assoc. apply IH1. intros gs'. now apply IH2.
Qed.

Lemma rep_agree (P p q : char -> bool) :
  (forall c, P c = true -> p c = q c) ->
  forall s n (k1 k2 : text -> option A),
  forallb P s = true ->
  (forall s', forallb P s' = true -> k1 s' = k2 s') ->
  rep p n s k1 = rep q n s k2.
Proof.
  intros Hpq. induction s as [|c s IH]; intros n k1 k2 Hs Hk; simpl.
  - now rewrite Hk.
  - simpl in Hs. apply andb_true_iff in Hs as [Hc Hs].
    rewrite (Hpq c Hc), (IH (pred n) k1 k2 Hs Hk), (Hk (c :: s)); auto.
    simpl. now rewrite Hc.
Qed.

Lemma run_agree (P : char -> bool) :
  forall r q, agree P r q ->
  forall s gs (k1 k2 : text -> list text -> option A),
  forallb P s = true ->
  (forall s' gs', forallb P s' = true -> k1 s' gs' = k2 s' gs') ->
  run r s gs k1 = run q s gs k2.
Proof.
  induction 1 as [p q Hpq | p q n Hpq | p q Hpq | r q _ IH
                 | r1 r2 q1 q2 _ IH1 _ IH2]; intros s gs k1 k2 Hs Hk; simpl.
  - destruct s as [|c s]; auto. simpl in Hs.
    apply andb_true_iff in Hs as [Hc Hs]. rewrite (Hpq c Hc).
    destruct (q c); auto.
  - apply rep_agree with (P := P); auto.
  - destruct s as [|c s]; auto. pose proof Hs as Hs'. simpl in Hs.
    apply andb_true_iff in Hs as [Hc Hs]. rewrite (Hpq c Hc).
    rewrite (Hk s gs Hs), (Hk (c :: s) gs Hs'). reflexivity.
  - apply IH; auto.
  - apply IH1; auto.
Qed.
End Soundness.

(** A match consumes a text of the pattern, and its groups lie in it. *)
Lemma match_at_sound r s n gs :
  match_at r s = Some (n, gs) ->
  exists w s', s = w ++ s' /\ den r w /\ n = length w
               /\ forall g, In g gs -> incl g w.
Proof.
  unfold match_at. intros H.
  apply run_sound in H as (w & s' & gs' & -> & Hd & Hk & Hg).
  inversion Hk; subst. exists w, s'. repeat split; auto.
  - rewrite length_app. lia.
  - intros g Hin. destruct (Hg g Hin) as [[] | ]; auto.
Qed.

(** Backtracking is complete: a text of the pattern at the start of [s]
    is found, or a competing one is. *)
Lemma match_at_complete r w s' : den r w -> match_at r (w ++ s') <> None.
Proof.
  intros Hd. unfold match_at. apply run_complete; auto. discriminate.
Qed.

Lemma match_at_agree P r q s :
  agree P r q -> forallb P s = true -> match_at r s = match_at q s.
Proof.
  intros Ha Hs. unfold match_at. apply run_agree with (P := P); auto.
Qed.

Lemma forallb_tl (P : char -> bool) c s :
  forallb P (c :: s) = true -> forallb P s = true.
Proof. simpl. intros H. now apply andb_true_iff in H. Qed.

Lemma sub_from_agree P r q repl :
  agree P r q ->
  forall s n, forallb P s = true -> sub_from r repl n s = sub_from q repl n s.
Proof.
  intros Ha. induction s as [|c s IH]; intros n Hs; simpl; auto.
  pose proof (forallb_tl _ _ _ Hs) as Hs'.
  destruct n as [|n]; auto.
  rewrite (@match_at_agree P r q _ Ha Hs).
  destruct (match_at q (c :: s)) as [[[|m] gs]|]; rewrite ?IH; auto.
Qed.

Lemma search_agree P r q :
  agree P r q -> forall s, forallb P s = true -> search r s = search q s.
Proof.
  intros Ha. induction s as [|c s IH]; intros Hs; simpl; auto.
  rewrite (@match_at_agree P r q _ Ha Hs), (IH (forallb_tl _ _ _ Hs)). reflexivity.
Qed.

Lemma findall_from_agree P r q :
  agree P r q ->
  forall s n, forallb P s = true -> findall_from r n s = findall_from q n s.
Proof.
  intros Ha. induction s as [|c s IH]; intros n Hs; simpl; auto.
  pose proof (forallb_tl _ _ _ Hs) as Hs'.
  destruct n as [|n]; auto.
  rewrite (@match_at_agree P r q _ Ha Hs).
  destruct (match_at q (c :: s)) as [[[|m] gs]|]; rewrite ?IH; auto.
Qed.

Lemma den_min_len r w : den r w -> (min_len r <= length w)%nat.
Proof.
  induction 1; simpl; try rewrite length_app; lia.
Qed.

(** A pattern that consumes something has no match of length 0. *)
Lemma match_at_pos r s n gs :
  (1 <= min_len r)%nat -> match_at r s = Some (n, gs) -> (1 <= n)%nat.
Proof.
  intros Hr Hm. apply match_at_sound in Hm as (w & s' & _ & Hd & -> & _).
  apply den_min_len in Hd. lia.
Qed.

(** After a match of [n] code points the scan goes on behind it. *)
Lemma sub_from_skip r repl :
  forall n s, sub_from r repl n s = sub_from r repl 0 (skipn n s).
Proof.
  induction n as [|n IH]; intros s; auto.
  destruct s as [|c s]; auto. simpl. apply IH.
Qed.

(** Where the pattern is found nowhere, [sub] changes nothing. *)
Lemma sub_no_match r repl :
  forall s, search r s = false -> sub r repl s = s.
Proof.
  unfold sub. induction s as [|c s IH]; intros H; simpl in *; auto.
  destruct (match_at r (c :: s)) as [[[|m] gs]|]; try discriminate;
    now rewrite IH.
Qed.

End ReFacts.

(** Every pattern of the module consumes at least one code point. *)
Lemma patterns_consume (U : Unicode) :
  ReSem.min_len hyphen_break = 4%nat /\ ReSem.min_len email = 3%nat
  /\ ReSem.min_len url = 8%nat /\ ReSem.min_len phone = 8%nat
  /\ ReSem.min_len word = 1%nat /\ ReSem.min_len lowercase = 1%nat.
Proof. repeat split; reflexivity. Qed.

(* ================================================================= *)
(** ** Facts about the string operations *)

Module PyFacts.

Lemma len_nonneg s : (0 <= len s)%Z.
Proof. unfold len. lia. Qed.

Lemma bound_range n i : (0 <= n)%Z -> (0 <= bound n i <= n)%Z.
Proof. intros Hn. unfold bound. destruct (i <? 0)%Z eqn:E; lia. Qed.

Lemma bound_inside n i : (0 <= i <= n)%Z -> bound n i = i.
Proof. intros H. unfold bound. destruct (i <? 0)%Z eqn:E; lia. Qed.

(** [s[0:i]] is the first [bound (len s) i] code points. *)
Lemma slice_0 s i : slice s 0 i = firstn (Z.to_nat (bound (len s) i)) s.
Proof.
  unfold slice. rewrite (bound_inside (n := len s) (i := 0%Z)).
  - simpl. now rewrite Z.sub_0_r.
  - pose proof (len_nonneg s). lia.
Qed.


Lemma rindex_from_range c :
  forall s a i, rindex_from c s a = Some i -> (a <= i < a + len s)%Z.
Proof.
  unfold len. induction s as [|x s IH]; intros a i H; simpl in H.
  - discriminate.
  - destruct (rindex_from c s (a + 1)) eqn:E.
    + inversion H; subst. apply IH in E. simpl length. lia.
    + destruct (x =? c); inversion H; subst. simpl length. lia.
Qed.

Lemma rindex_from_snoc c x :
  forall s a,
  rindex_from c (s ++ [x]) a =
    if x =? c then Some (a + len s)%Z else rindex_from c s a.
Proof.
  unfold len. induction s as [|y s IH]; intros a; simpl.
  - destruct (x =? c); auto. f_equal. lia.
  - rewrite IH. destruct (x =? c).
    + f_equal. lia.
    + reflexivity.
Qed.


(** [s.rfind(c, 0, stop)] answers -1 or an index before the end of the
    search. *)
Lemma rfind_range s c stop :
  (-1 <= rfind s c 0 stop < bound (len s) stop)%Z.
Proof.
  unfold rfind. pose proof (bound_range stop (len_nonneg s)) as Hb.
  rewrite slice_0, (bound_inside (n := len s) (i := 0%Z))
    by (pose proof (len_nonneg s); lia).
  destruct (rindex_from c _ 0) eqn:E; [|lia].
  apply rindex_from_range in E. unfold len in *.
  rewrite length_firstn in E. lia.
Qed.

Lemma length_filter_eqb c :
  forall l : text,
  length (filter (N.eqb c) l) = count_occ N.eq_dec l c.
Proof.
  induction l as [|x l IH]; simpl; auto.
  destruct (N.eq_dec x c) as [->|Hne].
  - rewrite N.eqb_refl. simpl. now rewrite IH.
  - destruct (N.eqb_spec c x); [congruence | auto].
Qed.

Lemma firstn_succ_nth (s : text) n :
  (n < length s)%nat -> firstn (S n) s = firstn n s ++ [nth n s 0].
Proof.
  revert s. induction n as [|n IH]; intros [|x s] H; simpl in *; try lia; auto.
  now rewrite <- IH by lia.
Qed.

End PyFacts.

(* ================================================================= *)
(** ** Position mapper *)

Lemma rfind_last_newline s :
  forall n, (n <= length s)%nat ->
  rfind s LF 0 (Z.of_nat n) = last_newline_before s n.
Proof.
  intros n Hn. unfold rfind.
  rewrite PyFacts.slice_0, !PyFacts.bound_inside by (unfold len; lia).
  rewrite Nat2Z.id.
  induction n as [|n IH]; simpl last_newline_before.
  - reflexivity.
  - rewrite PyFacts.firstn_succ_nth by lia.
    rewrite PyFacts.rindex_from_snoc. unfold len.
    rewrite length_firstn, Nat.min_l by lia.
    destruct (nth n s 0 =? LF); auto. apply IH. lia.
Qed.

(** C6: for a valid index, the line is one more than the number of newlines
    before the offset and the column is the offset minus the index of the
    last newline before it (-1 when there is none); in "abc\ndef\nghi"
    offset 4 is line 2, column 1 and offset 9 is line 3, column 2. *)
Theorem idx_to_line_col_spec :
  (forall text idx, (0 <= idx < len text)%Z ->
     _idx_to_line_col text idx =
       (newlines_in (firstn (Z.to_nat idx) text) + 1,
        idx - last_newline_before text (Z.to_nat idx))%Z)
  /\ _idx_to_line_col abc_def_ghi 4 = (2, 1)%Z
  /\ _idx_to_line_col abc_def_ghi 9 = (3, 2)%Z.
Proof.
  split; [|split; reflexivity].
  intros text idx H. unfold _idx_to_line_col, count, newlines_in.
  rewrite PyFacts.slice_0, PyFacts.bound_inside by lia.
  rewrite PyFacts.length_filter_eqb.
  rewrite <- (Z2Nat.id idx) at 2 3 by lia.
  rewrite rfind_last_newline by (unfold len in H; lia).
  rewrite Z2Nat.id by lia. f_equal. lia.
Qed.

(** The mapping at the two offsets of the example, from the general law. *)
Lemma idx_to_line_col_witness :
  (0 <= 4 < len abc_def_ghi)%Z
  /\ _idx_to_line_col abc_def_ghi 4 =
       (newlines_in (firstn 4 abc_def_ghi) + 1,
        4 - last_newline_before abc_def_ghi 4)%Z.
Proof.
  split; [vm_compute; split; [discriminate | reflexivity]|].
  apply (proj1 idx_to_line_col_spec abc_def_ghi 4%Z).
  vm_compute; split; [discriminate | reflexivity].
Defined.

(* ================================================================= *)
(** ** Reporter *)



(* ================================================================= *)
(** ** Issue filter *)

Section Filter.
Context {U : Unicode}.

Lemma collect_retained text allowed raw :
  map snd (collect text allowed raw) = filter (retained text allowed) raw.
Proof.
  induction raw as [|m raw IH]; auto.
  cbn [collect filter]. unfold retained at 1.
  destruct (ignored m); cbn [negb andb]; auto.
  destruct (mem _ allowed); cbn [negb map snd]; auto. now rewrite IH.
Qed.

Lemma collect_snippet text allowed raw :
  forall x, In x (collect text allowed raw) ->
  fst x = snippet_of text (snd x).
Proof.
  induction raw as [|m raw IH]; cbn [collect]; intros x Hx; [contradiction|].
  destruct (ignored m); auto.
  destruct (mem _ allowed); auto.
  destruct Hx as [<- | Hx]; auto.
Qed.
End Filter.

Section SortFacts.
Variable A : Type.
Variable key : A -> Z.

Lemma insert_by_perm x l : Permutation (x :: l) (insert_by key x l).
Proof.
  induction l as [|y l IH]; simpl; auto.
  destruct (key x <=? key y)%Z; auto.
  rewrite perm_swap. now constructor.
Qed.

Lemma sort_by_perm l : Permutation l (sort_by key l).
Proof.
  induction l as [|x l IH]; simpl; auto.
  rewrite <- insert_by_perm. now constructor.
Qed.

Lemma insert_by_sorted x l :
  Sorted (key_le key) l -> Sorted (key_le key) (insert_by key x l).
Proof.
  induction 1 as [|y l Hs IH Hhd]; simpl.
  - repeat constructor.
  - destruct (key x <=? key y)%Z eqn:E.
    + constructor; [now constructor|]. constructor. unfold key_le. lia.
    + constructor; auto.
      destruct l as [|z l]; simpl in *.
      * constructor. unfold key_le. lia.
      * destruct (key x <=? key z)%Z.
        -- constructor. unfold key_le. lia.
        -- constructor. now inversion Hhd.
Qed.

Lemma sort_by_sorted l : Sorted (key_le key) (sort_by key l).
Proof.
  induction l as [|x l IH]; simpl; [constructor|].
  now apply insert_by_sorted.
Qed.

(** Neighbours of a sorted list are in order. *)
Lemma sorted_neighbours l :
  Sorted (key_le key) l ->
  forall i a b, nth_error l i = Some a -> nth_error l (S i) = Some b ->
  (key a <= key b)%Z.
Proof.
  induction 1 as [|y l Hs IH Hhd]; intros i a b Ha Hb.
  - destruct i; discriminate.
  - destruct i as [|i]; simpl in Ha, Hb.
    + inversion Ha; subst a. destruct l as [|z l]; [discriminate|].
      simpl in Hb. inversion Hb; subst b. now inversion Hhd.
    + eapply IH; eauto.
Qed.

(** Stability: among the elements of one key, insertion puts the new
    element first and leaves the others as they were. *)
Lemma insert_by_stable k x l :
  filter (fun a => (key a =? k)%Z) (insert_by key x l) =
  filter (fun a => (key a =? k)%Z) (x :: l).
Proof.
  induction l as [|y l IH]; auto.
  simpl insert_by. destruct (key x <=? key y)%Z eqn:E; auto.
  simpl in *. rewrite IH.
  destruct (key x =? k)%Z eqn:Ex; auto.
  destruct (key y =? k)%Z eqn:Ey; auto. lia.
Qed.

Lemma sort_by_stable k l :
  filter (fun a => (key a =? k)%Z) (sort_by key l) =
  filter (fun a => (key a =? k)%Z) l.
Proof.
  induction l as [|x l IH]; auto.
  simpl sort_by. rewrite insert_by_stable. simpl. now rewrite IH.
Qed.
End SortFacts.

(** C3: the issues of the report are in ascending order of offset, and for
    each offset the issues at it are the retained matches at that offset in
    the order the checker gave them. *)
Theorem errors_sorted_stable :
  forall (U : Unicode) text allowed raw,
  let out := errors (compute_language_score text allowed raw) in
  (forall i a b,
     nth_error out i = Some a -> nth_error out (S i) = Some b ->
     (offset_key a <= offset_key b)%Z)
  /\ (forall k,
        map snd (filter (fun x => (offset_key x =? k)%Z) out) =
        filter (fun m => (getattr (offset m) 0 =? k)%Z)
               (filter (retained text allowed) raw))
  /\ Permutation (map snd out) (filter (retained text allowed) raw).
Proof.
  intros U text allowed raw out. subst out.
  cbv beta iota zeta delta [compute_language_score errors].
  repeat split.
  - apply sorted_neighbours. apply sort_by_sorted.
  - intros k. rewrite sort_by_stable, <- collect_retained.
    induction (collect text allowed raw) as [|x l IH]; simpl; auto.
    unfold offset_key at 1. destruct (getattr (offset (snd x)) 0 =? k)%Z;
      simpl; now rewrite IH.
  - rewrite <- collect_retained. apply Permutation_map.
    apply Permutation_sym, sort_by_perm.
Qed.

(* ================================================================= *)
(** ** Scorer *)

Lemma run_length_le p s : (run_length p s <= length s)%nat.
Proof. induction s as [|c s IH]; simpl; [|destruct (p c); simpl]; lia. Qed.

(** Greedy repetition before a pattern that cannot fail takes the whole run. *)
Lemma rep_total (A : Type) p (g : text -> A) :
  forall s n,
  Re.rep p n s (fun s' => Some (g s')) =
    if (n <=? run_length p s)%nat
    then Some (g (skipn (run_length p s) s)) else None.
Proof.
  induction s as [|c s IH]; intros n; simpl.
  - destruct n; reflexivity.
  - destruct (p c) eqn:Hc.
    + rewrite IH. destruct n as [|n]; simpl.
      * reflexivity.
      * destruct (n <=? run_length p s)%nat; reflexivity.
    + destruct n; reflexivity.
Qed.

Lemma match_at_rep p s :
  Re.match_at (Re.Rep p 1) s =
    match run_length p s with
    | O => None
    | S n => Some (S n, [])
    end.
Proof.
  unfold Re.match_at. simpl Re.run.
  rewrite (rep_total p (fun s' => (length s - length s', @nil text))%nat).
  pose proof (run_length_le p s) as Hle. rewrite length_skipn.
  destruct (run_length p s) as [|n] eqn:E; cbn [Nat.leb]; auto.
  do 2 f_equal. lia.
Qed.

Lemma findall_rep_length p :
  forall s,
  length (Re.findall_from (Re.Rep p 1) 0 s) = count_runs p false s
  /\ length (Re.findall_from (Re.Rep p 1) (run_length p s) s)
     = count_runs p true s.
Proof.
  induction s as [|c s [IH0 IH1]]; [split; reflexivity|].
  assert (H0 : length (Re.findall_from (Re.Rep p 1) 0 (c :: s))
               = count_runs p false (c :: s)).
  { cbn [Re.findall_from]. rewrite match_at_rep. simpl.
    destruct (p c); simpl; auto. }
  split; auto.
  simpl run_length. simpl count_runs. destruct (p c) eqn:Hc.
  - simpl. exact IH1.
  - rewrite H0. simpl. now rewrite Hc.
Qed.

(** A float that is above zero is not below it. *)
Lemma float_pos_not_neg x : (0 <? x)%float = true -> (x <? 0)%float = false.
Proof.
  rewrite !FloatAxioms.ltb_spec.
  change (FloatOps.Prim2SF 0%float) with (SpecFloat.S754_zero false).
  destruct (FloatOps.Prim2SF x) as [s | s | | s m e]; simpl;
    try destruct s; auto; discriminate.
Qed.

Lemma float_max_0_not_neg x : (float_max 0 x <? 0)%float = false.
Proof.
  unfold float_max. destruct (0 <? x)%float eqn:E.
  - now apply float_pos_not_neg.
  - reflexivity.
Qed.

(** C1: the word count is the number of maximal runs of word characters of
    the text; the density is errors / words * 100, and 0 for no words; the
    score is max(0.0, 100.0 - 5.0 * density); it is never below zero, it is
    100.0 when there are no words, and 0.0 for 100 errors in 10 words. *)
Theorem score_formula :
  forall (U : Unicode) text allowed raw,
  let r := compute_language_score text allowed raw in
  let errorCount := length (errors r) in
  wc r = count_runs isword false text
  /\ err_per_100 r =
       (if (wc r =? 0)%nat then 0
        else float_of_nat errorCount / float_of_nat (wc r) * 100)%float
  /\ score r = float_max 0 (100 - 5 * err_per_100 r)%float
  /\ (score r <? 0)%float = false
  /\ (wc r = 0%nat -> score r = 100%float)
  /\ (wc r = 10%nat -> errorCount = 100%nat ->
      err_per_100 r = 1000%float /\ score r = 0%float).
Proof.
  intros U text allowed raw r errorCount.
  assert (Hwc : wc r = count_runs isword false text).
  { subst r. cbv beta iota zeta delta [compute_language_score wc].
    apply (findall_rep_length isword text). }
  assert (He : err_per_100 r =
               (if (wc r =? 0)%nat then 0
                else float_of_nat errorCount / float_of_nat (wc r) * 100)%float).
  { subst errorCount r.
    cbv beta iota zeta delta [compute_language_score wc err_per_100 errors].
    destruct (length (Re.findall word text)); reflexivity. }
  assert (Hs : score r = float_max 0 (100 - 5 * err_per_100 r)%float).
  { subst r. reflexivity. }
  repeat split; auto.
  - rewrite Hs. apply float_max_0_not_neg.
  - intros H0. rewrite Hs, He, H0. reflexivity.
  - rewrite He, H, H0. reflexivity.
  - rewrite Hs, He, H, H0. reflexivity.
Qed.

(** With no word in the text the score is 100.0, whatever was reported. *)
Lemma score_formula_witness :
  wc (@compute_language_score ascii_unicode no_words [] [some_issue]) = 0%nat
  /\ length (errors (@compute_language_score ascii_unicode no_words []
                       [some_issue])) = 1%nat
  /\ score (@compute_language_score ascii_unicode no_words [] [some_issue])
     = 100%float.
Proof.
  split; [reflexivity | split; [reflexivity|]].
  apply (score_formula ascii_unicode no_words [] [some_issue]).
  reflexivity.
Defined.

(* ================================================================= *)
(** ** Allow-list *)

Section AllowList.
Context {U : Unicode}.

(** What the loop extracts is the flagged snippet without the whitespace
    around it. *)
Lemma snippet_of_flagged text m :
  (0 <= getattr (errorLength m) 0)%Z ->
  snippet_of text m = strip (flagged_snippet text m).
Proof.
  intros H. unfold snippet_of, flagged_snippet, or_int.
  destruct (getattr (errorLength m) 0 =? 0)%Z eqn:E0.
  - apply Z.eqb_eq in E0. rewrite E0. simpl.
    destruct (strip (getattr (context m) [])) eqn:Ec; simpl; auto.
  - rewrite E0. simpl. apply Z.eqb_neq in E0.
    destruct (Z.ltb_spec 0 (getattr (errorLength m) 0%Z)); [reflexivity | lia].
Qed.

Lemma retained_not_allowed text allowed raw m :
  In m (map snd (errors (compute_language_score text allowed raw))) ->
  mem (lower (snippet_of text m)) allowed = false /\ ignored m = false.
Proof.
  cbv beta iota zeta delta [compute_language_score errors]. intros H.
  apply (Permutation_in _ (Permutation_map snd
           (Permutation_sym (sort_by_perm offset_key _)))) in H.
  rewrite collect_retained in H. apply filter_In in H as [_ H].
  unfold retained in H. apply andb_true_iff in H as [H1 H2].
  split; now apply negb_true_iff.
Qed.
End AllowList.

(** C2, as stated, fails: the snippet is looked up after its surrounding
    whitespace is removed.  The span " numpy" is an entry of the allow-list,
    yet the issue stays in the report. *)
Lemma allow_list_lookup_strips :
  @flagged_snippet ascii_unicode numpy_text numpy_issue = str " numpy"
  /\ @matches_entry ascii_unicode
       (@flagged_snippet ascii_unicode numpy_text numpy_issue)
       [str " numpy"] = true
  /\ In numpy_issue
       (map snd (errors (@compute_language_score ascii_unicode numpy_text
                           [str " numpy"] [numpy_issue]))).
Proof.
  split; [reflexivity | split; [reflexivity |]]. left. reflexivity.
Qed.

(** C2, amended: a match whose flagged snippet, stripped of the whitespace
    around it and lower-cased, is an entry of the allow-list is not among the
    reported issues, whatever its rule. *)
Theorem allow_listed_excluded :
  forall (U : Unicode) text allowed raw m,
  (0 <= getattr (errorLength m) 0)%Z ->
  mem (lower (strip (flagged_snippet text m))) allowed = true ->
  ~ In m (map snd (errors (compute_language_score text allowed raw))).
Proof.
  intros U text allowed raw m Hlen Hmem Hin.
  apply retained_not_allowed in Hin as [Hin _].
  rewrite snippet_of_flagged in Hin by assumption. congruence.
Qed.

(** "NumPy" is suppressed by the entry "numpy". *)
Lemma allow_listed_excluded_witness :
  @flagged_snippet ascii_unicode daily_text daily_issue = str "NumPy"
  /\ ~ In daily_issue
         (map snd (errors (@compute_language_score ascii_unicode daily_text
                             [str "numpy"] [daily_issue]))).
Proof.
  split; [reflexivity|].
  apply (@allow_listed_excluded ascii_unicode daily_text [str "numpy"]
           [daily_issue] daily_issue).
  - discriminate.
  - reflexivity.
Defined.

(* ================================================================= *)
(** ** Normaliser *)

#[export] Instance ascii_laws : UnicodeLaws ascii_unicode.
Proof. split; reflexivity. Qed.

(** What holds of every code point of a text holds of what the cleaning
    steps make of it. *)
Section Preserved.
Variable Q : char -> bool.

Lemma forallb_flat_map (f : char -> text) s :
  (forall c, Q c = true -> forallb Q (f c) = true) ->
  forallb Q s = true -> forallb Q (flat_map f s) = true.
Proof.
  intros Hf. induction s as [|c s IH]; simpl; auto.
  intros H. apply andb_true_iff in H as [Hc Hs].
  rewrite forallb_app, (Hf c Hc), (IH Hs). reflexivity.
Qed.

Lemma lookup_in c table v :
  lookup c table = Some v -> In v (map snd table).
Proof.
  induction table as [|[k w] t IH]; simpl; [discriminate|].
  destruct (c =? k); intros H; [inversion H|]; auto.
Qed.

Lemma translate_forallb table s :
  forallb (forallb Q) (map snd table) = true ->
  forallb Q s = true -> forallb Q (translate table s) = true.
Proof.
  intros Ht. apply forallb_flat_map. intros c Hc.
  destruct (lookup c table) as [v|] eqn:E.
  - apply lookup_in in E. rewrite forallb_forall in Ht. now apply Ht.
  - simpl. now rewrite Hc.
Qed.

Lemma replace_forallb old s :
  forallb Q s = true -> forallb Q (replace old [] s) = true.
Proof.
  apply forallb_flat_map. intros c Hc.
  destruct (c =? old); simpl; auto. now rewrite Hc.
Qed.

Lemma groups_forallb r s n gs :
  Re.match_at r s = Some (n, gs) -> forallb Q s = true ->
  forall g, In g gs -> forallb Q g = true.
Proof.
  intros Hm Hs g Hg.
  apply ReFacts.match_at_sound in Hm as (w & s' & -> & _ & _ & Hin).
  rewrite forallb_app in Hs. apply andb_true_iff in Hs as [Hw _].
  rewrite forallb_forall in *. intros c Hc. apply Hw. now apply (Hin g Hg).
Qed.

Lemma expand_forallb repl gs :
  (forall c, In (Re.Plain c) repl -> Q c = true) ->
  (forall g, In g gs -> forallb Q g = true) ->
  forallb Q (Re.expand repl gs) = true.
Proof.
  intros Hp Hg. unfold Re.expand.
  induction repl as [|p repl IH]; simpl; auto.
  rewrite forallb_app, IH by (intros c Hc; apply Hp; now right).
  rewrite andb_true_r. destruct p as [i | c].
  - destruct (@nth_in_or_default text (pred i) gs []) as [Hin | ->]; auto.
  - simpl. rewrite Hp; auto. now left.
Qed.

Lemma sub_from_forallb r repl :
  (forall c, In (Re.Plain c) repl -> Q c = true) ->
  forall s n, forallb Q s = true -> forallb Q (Re.sub_from r repl n s) = true.
Proof.
  intros Hp. induction s as [|c s IH]; intros n Hs; simpl; auto.
  pose proof (ReFacts.forallb_tl _ _ _ Hs) as Hs'.
  destruct n as [|n]; auto.
  destruct (Re.match_at r (c :: s)) as [[[|m] gs]|] eqn:E.
  - simpl. rewrite IH by auto. simpl in Hs.
    apply andb_true_iff in Hs as [-> _]. reflexivity.
  - rewrite forallb_app, IH by auto. rewrite andb_true_r.
    apply expand_forallb; auto. eapply groups_forallb; eauto.
  - simpl. rewrite IH by auto. simpl in Hs.
    apply andb_true_iff in Hs as [-> _]. reflexivity.
Qed.
End Preserved.

Lemma translate_no_ligature s :
  forallb no_ligature s = true -> translate LIG_MAP s = s.
Proof.
  unfold translate. induction s as [|c s IH]; cbn [flat_map forallb]; auto.
  intros H. apply andb_true_iff in H as [Hc Hs]. rewrite (IH Hs).
  unfold no_ligature in Hc. destruct (lookup c LIG_MAP); [discriminate | auto].
Qed.

Lemma replace_absent old new s :
  forallb (differs old) s = true -> replace old new s = s.
Proof.
  induction s as [|c s IH]; simpl; auto. intros H.
  apply andb_true_iff in H as [Hc Hs]. rewrite (IH Hs).
  unfold differs in Hc. apply negb_true_iff in Hc. now rewrite Hc.
Qed.

Lemma replace_removes old s :
  forallb (differs old) (replace old [] s) = true.
Proof.
  induction s as [|c s IH]; simpl; auto.
  destruct (c =? old) eqn:E; simpl; auto.
  unfold differs at 1. now rewrite E.
Qed.

Lemma translate_removes s : forallb no_ligature (translate LIG_MAP s) = true.
Proof.
  unfold translate. induction s as [|c s IH]; cbn [flat_map]; auto.
  rewrite forallb_app, IH, andb_true_r.
  destruct (lookup c LIG_MAP) as [v|] eqn:E.
  - apply lookup_in in E.
    assert (Hv : forallb (forallb no_ligature) (map snd LIG_MAP) = true)
      by reflexivity.
    rewrite forallb_forall in Hv. now apply Hv.
  - simpl. unfold no_ligature. now rewrite E.
Qed.

Lemma ascii_no_ligature c : is_ascii c = true -> no_ligature c = true.
Proof.
  unfold is_ascii, no_ligature, LIG_MAP. intros H. apply N.ltb_lt in H.
  simpl.
  repeat match goal with
         | |- context [c =? ?k] => destruct (N.eqb_spec c k); [lia|]
         end.
  reflexivity.
Qed.

Lemma ascii_differs old c :
  128 <= old -> is_ascii c = true -> differs old c = true.
Proof.
  unfold is_ascii, differs. intros Ho H. apply N.ltb_lt in H.
  apply negb_true_iff, N.eqb_neq. lia.
Qed.

Lemma forallb_impl (P Q : char -> bool) s :
  (forall c, P c = true -> Q c = true) ->
  forallb P s = true -> forallb Q s = true.
Proof.
  intros H. rewrite !forallb_forall. auto.
Qed.

Section NormalizeFacts.
Context {U : Unicode}.

Lemma normalize_text_folded s :
  normalize_text s = Re.sub hyphen_break hyphen_joined (folded s).
Proof. reflexivity. Qed.

Lemma hyphen_joined_plain (Q : char -> bool) :
  Q 45 = true -> forall c, In (Re.Plain c) hyphen_joined -> Q c = true.
Proof.
  intros H c [E | [E | [E | []]]]; try discriminate. now inversion E.
Qed.

(** The output of the normaliser holds no ligature of the table and none of
    the three invisible characters. *)
Lemma normalize_text_clean s :
  let y := normalize_text s in
  forallb no_ligature y = true /\ forallb (differs 0xad) y = true
  /\ forallb (differs 0x200b) y = true /\ forallb (differs 0xfeff) y = true.
Proof.
  intros y. subst y. rewrite normalize_text_folded. unfold Re.sub, folded.
  repeat split; apply sub_from_forallb;
    try (apply hyphen_joined_plain; reflexivity).
  - do 3 apply replace_forallb. apply translate_removes.
  - do 2 apply replace_forallb. apply replace_removes.
  - apply replace_forallb. apply replace_removes.
  - apply replace_removes.
Qed.
End NormalizeFacts.

(** C4, as stated, fails: matches of the line-break hyphen do not overlap,
    so in "a-\nb-\nc" the first pass joins only the first break (the "b" is
    used up as the end of the first match) and the second pass joins the
    other. *)
Lemma normalize_not_idempotent :
  @normalize_text ascii_unicode broken_twice = str "a-b-" ++ [LF] ++ str "c"
  /\ @normalize_text ascii_unicode (@normalize_text ascii_unicode broken_twice)
     = str "a-b-c"
  /\ @normalize_text ascii_unicode (@normalize_text ascii_unicode broken_twice)
     <> @normalize_text ascii_unicode broken_twice.
Proof.
  split; [reflexivity | split; [reflexivity | discriminate]].
Qed.

(** C4, amended: when the output of the normaliser is in NFKC form and no
    line-break hyphen is left in it, normalising it again changes nothing. *)
Theorem normalize_idempotent_when_settled :
  forall (U : Unicode) x,
  let y := normalize_text x in
  nfkc y = y -> Re.search hyphen_break y = false -> normalize_text y = y.
Proof.
  intros U x y Hn Hs.
  destruct (normalize_text_clean x) as (H1 & H2 & H3 & H4). fold y in H1, H2, H3, H4.
  rewrite normalize_text_folded. unfold folded.
  rewrite Hn, (translate_no_ligature _ H1).
  rewrite (@replace_absent 0xad [] y H2), (@replace_absent 0x200b [] y H3),
    (@replace_absent 0xfeff [] y H4).
  now apply ReFacts.sub_no_match.
Qed.

(** "fast-evolving", once joined, is a fixed point. *)
Lemma normalize_idempotent_witness :
  @normalize_text ascii_unicode fast_evolving = str "fast-evolving"
  /\ @normalize_text ascii_unicode (@normalize_text ascii_unicode fast_evolving)
     = @normalize_text ascii_unicode fast_evolving.
Proof.
  split; [reflexivity|].
  apply (@normalize_idempotent_when_settled ascii_unicode fast_evolving);
    reflexivity.
Defined.

(* ================================================================= *)
(** ** ASCII texts *)



(** On an ASCII text the first three steps of the normaliser of the ASCII
    database change nothing. *)
Lemma folded_ascii s :
  forallb is_ascii s = true -> @folded ascii_unicode s = s.
Proof.
  intros H. unfold folded. cbn [nfkc ascii_unicode].
  rewrite translate_no_ligature
    by (revert H; apply forallb_impl, ascii_no_ligature).
  assert (D : forall old, 128 <= old -> forallb (differs old) s = true).
  { intros old Ho. revert H. apply forallb_impl. intros c.
    now apply ascii_differs. }
  rewrite (@replace_absent 0xad [] s), (@replace_absent 0x200b [] s),
    (@replace_absent 0xfeff [] s); auto; apply D; lia.
Qed.

Section Transfer.
Context {U : Unicode} {L : UnicodeLaws U}.

Lemma agree_chr c : ReSem.agree is_ascii (Re.Chr c) (Re.Chr c).
Proof. now constructor. Qed.



Lemma phone_inner_ascii c :
  is_ascii c = true -> phone_inner c = @phone_inner ascii_unicode c.
Proof.
  intros H. unfold phone_inner. now rewrite isspace_ascii, isdigit_ascii.
Qed.

Lemma hyphen_break_agree :
  ReSem.agree is_ascii hyphen_break (@hyphen_break ascii_unicode).
Proof.
  unfold hyphen_break.
  repeat first [apply agree_chr | constructor];
    auto using isword_ascii, isspace_ascii.
Qed.



Lemma phone_agree : ReSem.agree is_ascii phone (@phone ascii_unicode).
Proof.
  unfold phone.
  repeat constructor; auto using isdigit_ascii, phone_inner_ascii.
Qed.

Lemma folded_keeps_ascii s :
  forallb is_ascii s = true -> forallb is_ascii (@folded ascii_unicode s) = true.
Proof. intros H. now rewrite folded_ascii. Qed.

(** On ASCII texts the normaliser is that of the ASCII database. *)
Lemma normalize_text_ascii s :
  forallb is_ascii s = true ->
  normalize_text s = @normalize_text ascii_unicode s.
Proof.
  intros H. rewrite !normalize_text_folded.
  assert (E : folded s = @folded ascii_unicode s).
  { unfold folded. now rewrite nfkc_ascii. }
  rewrite E. apply ReFacts.sub_from_agree with (P := is_ascii).
  - apply hyphen_break_agree.
  - now apply folded_keeps_ascii.
Qed.




End Transfer.







(* ================================================================= *)
(** ** Noise stripping: the replaced tokens *)

Lemma Replaced_ext (tok1 tok2 : text -> Prop) new s o :
  (forall t, tok1 t <-> tok2 t) ->
  Replaced tok1 new s o -> Replaced tok2 new s o.
Proof.
  intros E. induction 1 as [| c s o Hno _ IH | t rest o Ht _ IH].
  - constructor.
  - constructor; auto. intros t rest Ht. apply Hno. now apply E.
  - constructor; auto. now apply E.
Qed.

(** [re.sub] with a constant replacement, for a pattern that matches no
    empty text. *)
Lemma sub_replaced r repl new :
  (forall gs, Re.expand repl gs = new) ->
  (forall w, ReSem.den r w -> w <> []) ->
  forall s, Replaced (ReSem.den r) new s (Re.sub r repl s).
Proof.
  intros Hnew Hne s. unfold Re.sub.
  remember (length s) as n eqn:Hn.
  assert (Hle : (length s <= n)%nat) by lia. clear Hn. revert s Hle.
  induction n as [|n IH]; intros s Hle.
  - destruct s; [constructor | simpl in Hle; lia].
  - destruct s as [|c s]; [constructor|]. simpl in Hle.
    cbn [Re.sub_from].
    destruct (Re.match_at r (c :: s)) as [[[|m] gs]|] eqn:E.
    + apply ReFacts.match_at_sound in E as (w & s' & _ & Hd & Hl & _).
      destruct w; [now apply Hne in Hd | discriminate].
    + apply ReFacts.match_at_sound in E as (w & s' & Hw & Hd & Hl & _).
      destruct w as [|c' w]; [discriminate|].
      simpl in Hw, Hl. inversion Hw; subst c' s. inversion Hl; subst m.
      rewrite ReFacts.sub_from_skip, skipn_app, skipn_all, Nat.sub_diag, Hnew.
      simpl skipn. change (c :: w ++ s') with ((c :: w) ++ s').
      constructor; auto. apply IH. rewrite length_app in Hle. simpl. lia.
    + constructor.
      * intros t rest Ht Heq. rewrite Heq in E.
        now apply (ReFacts.match_at_complete rest) in Ht.
      * apply IH. lia.
Qed.

Section PhoneTokens.
Context {U : Unicode}.

Lemma den_phone t : ReSem.den phone t <-> phone_token t.
Proof.
  unfold phone, phone_token. split.
  - intros H.
    inversion H as [| | | | |? ? w1 r1 H1 H2]; subst; clear H.
    inversion H2 as [| | | | |? ? w2 r2 H3 H4]; subst; clear H2.
    inversion H4 as [| | | | |? ? w3 w4 H5 H6]; subst; clear H4.
    inversion H3; subst; clear H3. inversion H5; subst; clear H5.
    inversion H6; subst; clear H6.
    match goal with
    | |- exists plus d1 mid d2, ?p ++ [?a] ++ ?m ++ [?b] = _ /\ _ =>
        exists p, a, m, b
    end.
    repeat split; auto.
    inversion H1; subst; auto.
    match goal with H : (43 =? _) = true |- _ => apply N.eqb_eq in H; subst end.
    auto.
  - intros (plus & d1 & mid & d2 & -> & Hp & Hd1 & Hm & Hl & Hd2).
    constructor.
    + destruct Hp as [-> | ->]; constructor. reflexivity.
    + change (d1 :: mid ++ [d2]) with ([d1] ++ mid ++ [d2]).
      repeat constructor; auto.
Qed.

Lemma phone_token_length t : phone_token t -> (8 <= length t)%nat.
Proof.
  intros (plus & d1 & mid & d2 & -> & _ & _ & _ & Hl & _).
  rewrite length_app. simpl. rewrite length_app. simpl. lia.
Qed.
End PhoneTokens.

(** C9, as stated, fails in both directions: two digits with six dashes
    between them are replaced, and a run of exactly seven digits is not. *)
Lemma phone_step_not_seven_digits :
  Re.sub (@phone ascii_unicode) blank (str "ext 1------2 end")
    = str "ext   end"
  /\ digits_in (str "1------2") = 2%nat
  /\ Re.sub (@phone ascii_unicode) blank (str "tel 1234567 now")
     = str "tel 1234567 now"
  /\ digits_in (str "1234567") = 7%nat.
Proof. repeat split; reflexivity. Qed.

(** C9, amended: the phone step replaces by one blank, from left to right,
    each token made of an optional '+', a digit, six or more code points
    that are digits, dashes, whitespace or parentheses, and a closing digit;
    it replaces nothing else and copies a code point only where no such
    token starts.  A token has eight code points or more, of which only the
    first and the last must be digits. *)
Theorem phone_step_spec :
  forall (U : Unicode) s,
  Replaced phone_token [32] s (Re.sub phone blank s)
  /\ (forall t, phone_token t -> (8 <= length t)%nat)
  /\ (forall d1 d2 mid,
        isdigit d1 = true -> isdigit d2 = true ->
        forallb phone_inner mid = true -> (6 <= length mid)%nat ->
        phone_token (d1 :: mid ++ [d2])).
Proof.
  intros U s. split; [|split].
  - apply Replaced_ext with (tok1 := ReSem.den phone).
    + apply den_phone.
    + apply sub_replaced.
      * reflexivity.
      * intros w Hw. apply den_phone, phone_token_length in Hw.
        destruct w; [simpl in Hw; lia | discriminate].
  - apply phone_token_length.
  - intros d1 d2 mid H1 H2 Hm Hl. exists [], d1, mid, d2. auto 10.
Qed.

(** Two digits around six dashes form a token of the ASCII database. *)
Lemma phone_step_witness : @phone_token ascii_unicode (str "1------2").
Proof.
  apply (proj2 (proj2 (phone_step_spec ascii_unicode [])) 49 50 (str "------"));
    reflexivity || (simpl; lia).
Defined.

(* ================================================================= *)
(** ** Noise stripping: the lines *)

Lemma splitlines_from_no_break :
  forall s b, Forall (fun l => no_break l = true) (splitlines_from b s).
Proof.
  induction s as [|c s IH]; intros b; cbn [splitlines_from]; [constructor|].
  destruct (b && (c =? LF)); auto.
  destruct (is_linebreak c) eqn:E.
  - constructor; [reflexivity | apply IH].
  - specialize (IH false).
    destruct (splitlines_from false s) as [|l ls].
    + repeat constructor. unfold no_break. simpl. now rewrite E.
    + inversion IH; subst. constructor; auto.
      unfold no_break in *. simpl. now rewrite E.
Qed.

(** A text without line boundary in front of a text goes to the front of
    its first line. *)
Lemma splitlines_app_line :
  forall l rest, no_break l = true ->
  splitlines (l ++ rest) =
    match splitlines rest with
    | [] => match l with [] => [] | _ => [l] end
    | l' :: ls => (l ++ l') :: ls
    end.
Proof.
  unfold splitlines.
  induction l as [|c l IH]; intros rest H.
  - simpl. destruct (splitlines_from false rest); reflexivity.
  - unfold no_break in H. simpl in H. apply andb_true_iff in H as [Hc Hl].
    apply negb_true_iff in Hc.
    cbn [app splitlines_from andb]. rewrite Hc, (IH rest Hl).
    destruct (splitlines_from false rest); [destruct l|]; reflexivity.
Qed.

(** Lines that are not empty and hold no line boundary are the lines of
    their join. *)
Lemma splitlines_join :
  forall ls, Forall (fun l => l <> [] /\ no_break l = true) ls ->
  splitlines (join [LF] ls) = ls.
Proof.
  induction 1 as [|l ls [Hne Hnb] Hls IH]; [reflexivity|].
  destruct ls as [|l2 ls].
  - simpl. rewrite <- (app_nil_r l) at 1.
    rewrite splitlines_app_line by assumption.
    destruct l; [contradiction | reflexivity].
  - change (join [LF] (l :: l2 :: ls))
      with (l ++ [LF] ++ join [LF] (l2 :: ls)).
    rewrite splitlines_app_line by assumption.
    assert (E : forall t, splitlines ([LF] ++ t) = [] :: splitlines t)
      by reflexivity.
    now rewrite E, IH, app_nil_r.
Qed.

Lemma search_cls p s : Re.search (Re.Cls p) s = existsb p s.
Proof.
  induction s as [|c s IH]; [reflexivity|].
  cbn [Re.search existsb]. unfold Re.match_at. cbn [Re.run].
  destruct (p c); [|exact IH].
  replace (length (c :: s) - length s)%nat with 1%nat by (cbn [length]; lia).
  reflexivity.
Qed.


Section Lines.
Context {U : Unicode}.

Lemma strip_noise_join x :
  strip_noise x =
  join [LF] (filter has_lowercase (splitlines (substitute (normalize_text x)))).
Proof.
  unfold strip_noise. f_equal. apply filter_ext. intros l.
  apply search_cls.
Qed.

Lemma strip_noise_splitlines x :
  splitlines (strip_noise x) =
  filter has_lowercase (splitlines (substitute (normalize_text x))).
Proof.
  rewrite strip_noise_join. apply splitlines_join.
  apply Forall_forall. intros l Hl. apply filter_In in Hl as [Hin Hlow].
  split.
  - intros ->. discriminate.
  - pose proof (splitlines_from_no_break (substitute (normalize_text x)) false)
      as Hnb.
    rewrite Forall_forall in Hnb. now apply Hnb.
Qed.
End Lines.




(* ================================================================= *)
(** ** The sort is the stable sort *)

Section StableSortUnique.
Variable A : Type.
Variable key : A -> Z.

Lemma at_key_in k a l : In a (at_key key k l) <-> In a l /\ key a = k.
Proof.
  unfold at_key. rewrite filter_In, Z.eqb_eq. reflexivity.
Qed.

Lemma sorted_head_least x l :
  Sorted (key_le key) (x :: l) -> forall a, In a (x :: l) -> (key x <= key a)%Z.
Proof.
  intros H. apply Sorted_StronglySorted in H.
  - inversion H as [|? ? _ Hall]; subst. rewrite Forall_forall in Hall.
    intros a [<- | Ha]; [lia | now apply Hall].
  - intros a b c. unfold key_le. lia.
Qed.

(** Two sorted lists with the same elements at every key, in the same
    order at every key, are the same list. *)
Lemma sorted_stable_unique :
  forall l1 l2,
  Sorted (key_le key) l1 -> Sorted (key_le key) l2 ->
  (forall k, at_key key k l1 = at_key key k l2) -> l1 = l2.
Proof.
  induction l1 as [|x l1 IH]; intros l2 S1 S2 E.
  - destruct l2 as [|y l2]; auto.
    specialize (E (key y)). unfold at_key in E. simpl in E.
    rewrite Z.eqb_refl in E. discriminate.
  - destruct l2 as [|y l2].
    + specialize (E (key x)). unfold at_key in E. simpl in E.
      rewrite Z.eqb_refl in E. discriminate.
    + assert (Hxy : key x = key y).
      { assert (In y (x :: l1)).
        { apply (at_key_in (key y)). rewrite E. apply at_key_in.
          split; [now left | reflexivity]. }
        assert (In x (y :: l2)).
        { apply (at_key_in (key x)). rewrite <- E. apply at_key_in.
          split; [now left | reflexivity]. }
        pose proof (sorted_head_least S1 H).
        pose proof (sorted_head_least S2 H0). lia. }
      assert (x = y).
      { specialize (E (key x)). unfold at_key in E. simpl in E.
        rewrite <- Hxy, Z.eqb_refl in E. now inversion E. }
      subst y. f_equal. apply IH.
      * now inversion S1.
      * now inversion S2.
      * intros k. specialize (E k). unfold at_key in *. simpl in E.
        destruct (key x =? k)%Z; [now inversion E | assumption].
Qed.

(** Whatever sorts stably by the key returns what [sort_by] returns. *)
Lemma stable_sort_is_sort_by l out :
  Sorted (key_le key) out -> (forall k, at_key key k out = at_key key k l) ->
  out = sort_by key l.
Proof.
  intros S E. apply sorted_stable_unique; auto.
  - apply sort_by_sorted.
  - intros k. rewrite E. symmetry. apply sort_by_stable.
Qed.
End StableSortUnique.

(* ================================================================= *)
(** ** The counterexamples under any database *)

Section AnyDatabase.
Context {U : Unicode} {L : UnicodeLaws U}.

(** The second pass differs from the first whatever the database. *)
Lemma normalize_twice_differs :
  normalize_text (normalize_text broken_twice) <> normalize_text broken_twice.
Proof.
  rewrite (normalize_text_ascii broken_twice) by reflexivity.
  rewrite normalize_text_ascii by reflexivity. discriminate.
Qed.

(** The phone step on two digits around six dashes, and on seven digits. *)
Lemma phone_step_any_database :
  Re.sub phone blank (str "ext 1------2 end") = str "ext   end"
  /\ Re.sub phone blank (str "tel 1234567 now") = str "tel 1234567 now".
Proof.
  unfold Re.sub.
  split; rewrite (ReFacts.sub_from_agree blank phone_agree) by reflexivity;
    reflexivity.
Qed.

Lemma lstrip_of_ascii s :
  forallb is_ascii s = true ->
  lstrip_of isspace s = lstrip_of ascii_isspace s.
Proof.
  induction s as [|c s IH]; simpl; auto. intros H.
  apply andb_true_iff in H as [Hc Hs]. now rewrite (isspace_ascii c Hc), IH.
Qed.

Lemma lstrip_of_keeps_ascii s :
  forallb is_ascii s = true ->
  forallb is_ascii (lstrip_of ascii_isspace s) = true.
Proof.
  induction s as [|c s IH]; simpl; auto. intros H.
  pose proof H as H'. apply andb_true_iff in H as [Hc Hs].
  destruct (ascii_isspace c); auto.
Qed.

Lemma forallb_rev (P : char -> bool) s :
  forallb P s = true -> forallb P (rev s) = true.
Proof.
  rewrite !forallb_forall. intros H c Hc. apply H. now apply in_rev.
Qed.

Lemma strip_ascii s :
  forallb is_ascii s = true -> strip s = @strip ascii_unicode s.
Proof.
  intros H. unfold strip, strip_of, rstrip_of. cbn [isspace ascii_unicode].
  rewrite (lstrip_of_ascii s H).
  rewrite lstrip_of_ascii; auto.
  now apply forallb_rev, lstrip_of_keeps_ascii.
Qed.

(** The issue on " numpy" stays in the report whatever the database. *)
Lemma numpy_issue_reported :
  In numpy_issue
     (map snd (errors (compute_language_score numpy_text [str " numpy"]
                         [numpy_issue]))).
Proof.
  cbv beta iota zeta delta [compute_language_score errors].
  assert (E : collect numpy_text [str " numpy"] [numpy_issue]
              = [(str "numpy", numpy_issue)]).
  { cbn [collect]. change (ignored numpy_issue) with false. cbv iota.
    assert (Es : snippet_of numpy_text numpy_issue = str "numpy").
    { change (snippet_of numpy_text numpy_issue) with (strip (str " numpy")).
      now rewrite strip_ascii. }
    rewrite Es, lower_ascii by reflexivity. reflexivity. }
  rewrite E. left. reflexivity.
Qed.
End AnyDatabase.

(* ================================================================= *)
(** ** Examples of the order of the report *)

(** The first two reported issues of [unordered] are in order, from the
    general law of the order. *)
Lemma errors_sorted_witness :
  map (fun x => (offset_key x, ruleId (snd x)))
      (errors (@compute_language_score ascii_unicode abc_def_ghi [] unordered))
  = [(4%Z, Some (str "A")); (9%Z, Some (str "B")); (9%Z, Some (str "C"))]
  /\ (offset_key (str "d", issue_at 4 "A")
      <= offset_key (str "h", issue_at 9 "B"))%Z.
Proof.
  split; [reflexivity|].
  apply (proj1 (@errors_sorted_stable ascii_unicode abc_def_ghi [] unordered)
           0%nat); reflexivity.
Defined.

(* ================================================================= *)
(** ** More on the issue filter *)

Lemma text_eqb_eq a b : text_eqb a b = true <-> a = b.
Proof.
  revert b. induction a as [|x a IH]; intros [|y b]; simpl;
    try (split; [discriminate | intros H; inversion H]); [tauto|].
  rewrite andb_true_iff, N.eqb_eq, IH. split.
  - intros [-> ->]. reflexivity.
  - intros H. inversion H. auto.
Qed.

Lemma mem_In x xs : mem x xs = true <-> In x xs.
Proof.
  unfold mem. rewrite existsb_exists. split.
  - intros (y & Hy & E). apply text_eqb_eq in E. now subst.
  - intros H. exists x. split; auto. now apply text_eqb_eq.
Qed.

(** X1: a match of one of the five cosmetic rules is never reported,
    whatever the allow-list. *)
Theorem cosmetic_rules_suppressed :
  forall (U : Unicode) text allowed raw m r,
  ruleId m = Some r -> In r IGNORE_RULES ->
  ~ In m (map snd (errors (compute_language_score text allowed raw))).
Proof.
  intros U text allowed raw m r Hr Hin H.
  apply retained_not_allowed in H as [_ H].
  unfold ignored in H. rewrite Hr in H. apply mem_In in Hin. congruence.
Qed.

(** A whitespace issue among others. *)
Lemma cosmetic_rules_suppressed_witness :
  ~ In (issue_at 0 "WHITESPACE_RULE")
       (map snd (errors (@compute_language_score ascii_unicode abc_def_ghi []
                           unordered))).
Proof.
  apply (@cosmetic_rules_suppressed ascii_unicode abc_def_ghi [] unordered
           (issue_at 0 "WHITESPACE_RULE") (str "WHITESPACE_RULE")).
  - reflexivity.
  - simpl. auto.
Defined.

Section SortFilter.
Variable A : Type.
Variable key : A -> Z.
Variable g : A -> bool.

Lemma filter_sorted l :
  Sorted (key_le key) l -> Sorted (key_le key) (filter g l).
Proof.
  intros H. apply Sorted_StronglySorted in H;
    [|intros a b c; unfold key_le; lia].
  apply StronglySorted_Sorted.
  induction H as [|x l Hs IH Hall]; simpl; [constructor|].
  destruct (g x); auto. constructor; auto.
  rewrite Forall_forall in *. intros y Hy. apply filter_In in Hy as [Hy _].
  now apply Hall.
Qed.

Lemma at_key_filter k l :
  at_key key k (filter g l) = filter g (at_key key k l).
Proof.
  unfold at_key. induction l as [|x l IH]; simpl; auto.
  destruct (g x) eqn:Eg, (key x =? k)%Z eqn:Ek; simpl;
    rewrite ?Eg, ?Ek, IH; reflexivity.
Qed.

(** Sorting what a filter keeps is filtering what was sorted. *)
Lemma sort_by_filter l :
  sort_by key (filter g l) = filter g (sort_by key l).
Proof.
  symmetry. apply stable_sort_is_sort_by.
  - apply filter_sorted, sort_by_sorted.
  - intros k. rewrite !at_key_filter. unfold at_key.
    now rewrite sort_by_stable.
Qed.
End SortFilter.

Section AllowListGrowth.
Context {U : Unicode}.

Lemma collect_larger text allowed allowed' raw :
  (forall e, In e allowed -> In e allowed') ->
  collect text allowed' raw =
  filter (not_allowed allowed') (collect text allowed raw).
Proof.
  intros Hincl. induction raw as [|m raw IH]; auto.
  cbn [collect]. destruct (ignored m); auto.
  destruct (mem (lower (snippet_of text m)) allowed) eqn:E.
  - apply mem_In, Hincl, mem_In in E. now rewrite E.
  - cbn [filter]. unfold not_allowed at 1. cbn [fst].
    destruct (mem (lower (snippet_of text m)) allowed'); cbn [negb]; auto.
    now rewrite IH.
Qed.
End AllowListGrowth.

(** X2: with a larger allow-list the report is the former report without the
    issues whose snippet the larger list holds; the other issues stay, in
    the same order. *)
Theorem larger_allow_list_only_removes :
  forall (U : Unicode) text allowed allowed' raw,
  (forall e, In e allowed -> In e allowed') ->
  errors (compute_language_score text allowed' raw) =
  filter (not_allowed allowed')
         (errors (compute_language_score text allowed raw)).
Proof.
  intros U text allowed allowed' raw Hincl.
  cbv beta iota zeta delta [compute_language_score errors].
  rewrite (@collect_larger U text allowed allowed' raw Hincl). apply sort_by_filter.
Qed.

(** The entry "numpy" removes the issue on "NumPy" from the report of the
    empty allow-list. *)
Lemma larger_allow_list_witness :
  errors (@compute_language_score ascii_unicode daily_text [str "numpy"]
            [daily_issue]) =
  filter (@not_allowed ascii_unicode [str "numpy"])
         (errors (@compute_language_score ascii_unicode daily_text []
                    [daily_issue])).
Proof.
  apply (@larger_allow_list_only_removes ascii_unicode daily_text []
           [str "numpy"] [daily_issue]).
  intros e [].
Defined.

(* ================================================================= *)
(** ** More on the normaliser *)

(** X3: whatever the input and the database, the normalised text holds no
    ligature of the table, no soft hyphen, no zero-width space and no byte
    order mark. *)
Theorem normalized_text_has_no_artifacts :
  forall (U : Unicode) s c,
  In c (normalize_text s) ->
  lookup c LIG_MAP = None /\ c <> 0xad /\ c <> 0x200b /\ c <> 0xfeff.
Proof.
  intros U s c Hc.
  destruct (normalize_text_clean s) as (H1 & H2 & H3 & H4).
  cbv zeta in H1, H2, H3, H4. rewrite forallb_forall in H1, H2, H3, H4.
  specialize (H1 c Hc). specialize (H2 c Hc).
  specialize (H3 c Hc). specialize (H4 c Hc).
  unfold no_ligature in H1. unfold differs in H2, H3, H4.
  apply negb_true_iff, N.eqb_neq in H2, H3, H4.
  destruct (lookup c LIG_MAP); [discriminate | auto].
Qed.

(** A private-use "fi", a soft hyphen and a letter. *)
Lemma normalized_text_witness :
  @normalize_text ascii_unicode [0xf001; 0xad; 97] = str "fia"
  /\ lookup 105 LIG_MAP = None /\ 105 <> 0xad /\ 105 <> 0x200b
  /\ 105 <> 0xfeff.
Proof.
  split; [reflexivity|].
  apply (@normalized_text_has_no_artifacts ascii_unicode [0xf001; 0xad; 97]).
  right. left. reflexivity.
Defined.

Section HyphenShape.
Context {U : Unicode}.

(** What a match of the line-break hyphen looks like. *)
Lemma hyphen_match_shape s n gs :
  Re.match_at hyphen_break s = Some (n, gs) ->
  exists a b ws rest,
    s = a :: 45 :: ws ++ LF :: b :: rest
    /\ isword a = true /\ isword b = true /\ forallb isspace ws = true
    /\ n = (4 + length ws)%nat /\ gs = [[a]; [b]].
Proof.
  unfold Re.match_at, hyphen_break. cbn [Re.run Re.Chr]. intros H.
  destruct s as [|a s1]; [discriminate|].
  destruct (isword a) eqn:Ha; [|discriminate].
  destruct s1 as [|h s2]; [discriminate|].
  destruct (45 =? h) eqn:Eh; [|discriminate]. apply N.eqb_eq in Eh. subst h.
  apply ReFacts.rep_sound in H as (ws & s' & -> & Hws & _ & H).
  destruct s' as [|c s3]; [discriminate|].
  destruct (LF =? c) eqn:Ec; [|discriminate]. apply N.eqb_eq in Ec. subst c.
  destruct s3 as [|b rest]; [discriminate|].
  destruct (isword b) eqn:Hb; [|discriminate].
  assert (E1 : (length (a :: (45%N : char) :: ws ++ LF :: b :: rest) - length rest
                = 4 + length ws)%nat)
    by (cbn [length]; rewrite length_app; cbn [length]; lia).
  assert (E2 : forall (x : char) (l : text),
                 (length (x :: l) - length l = 1)%nat)
    by (intros x l; cbn [length]; lia).
  rewrite E1, !E2 in H.
  cbn [firstn app] in H. injection H as <- <-.
  exists a, b, ws, rest. repeat split; auto.
Qed.
End HyphenShape.


Lemma filter_none (A : Type) (f g : A -> bool) l :
  (forall a, g a = true -> f a = false) -> forallb g l = true ->
  filter f l = [].
Proof.
  intros H. induction l as [|a l IH]; simpl; auto. intros Hl.
  apply andb_true_iff in Hl as [Ha Hl]. now rewrite (H a Ha), IH.
Qed.

Section UnwrapKeeps.
Context {U : Unicode} {L : UnicodeLaws U}.

Lemma newline_is_space : isspace LF = true.
Proof. now rewrite isspace_ascii. Qed.

Lemma unwrap_keeps_nonspace :
  forall n s, (length s <= n)%nat ->
  filter nonspace (Re.sub_from hyphen_break hyphen_joined 0 s)
  = filter nonspace s.
Proof.
  induction n as [|n IH]; intros s Hle.
  - destruct s; [reflexivity | simpl in Hle; lia].
  - destruct s as [|c s]; [reflexivity|]. simpl in Hle.
    cbn [Re.sub_from].
    destruct (Re.match_at hyphen_break (c :: s)) as [[[|m] gs]|] eqn:E.
    + cbn [filter]. rewrite IH by lia. reflexivity.
    + apply hyphen_match_shape in E
        as (a & b & ws & rest & Hs & _ & _ & Hws & Hm & ->).
      injection Hs as -> ->. injection Hm as ->.
      rewrite ReFacts.sub_from_skip.
      rewrite skipn_cons, skipn_app, skipn_all2 by lia.
      replace (S (S (length ws)) - length ws)%nat with 2%nat by lia.
      cbn [skipn app]. rewrite filter_app.
      rewrite IH
        by (cbn [length] in Hle; rewrite length_app in Hle;
            cbn [length] in Hle; lia).
      change (Re.expand hyphen_joined [[a]; [b]]) with ([a; 45] ++ [b]).
      change (a :: 45 :: ws ++ LF :: b :: rest)
        with ([a; 45] ++ ws ++ [LF] ++ [b] ++ rest).
      rewrite !filter_app.
      rewrite (filter_none nonspace isspace ws)
        by (auto; intros x Hx; unfold nonspace; now rewrite Hx).
      assert (Hnl : filter nonspace [LF] = []).
      { cbn [filter]. unfold nonspace. now rewrite newline_is_space. }
      rewrite Hnl. cbn [app]. now rewrite <- app_assoc.
    + cbn [filter]. rewrite IH by lia. reflexivity.
Qed.

(** On an ASCII text the first three steps change nothing. *)
Lemma folded_ascii_any s : forallb is_ascii s = true -> folded s = s.
Proof.
  intros H. rewrite <- (folded_ascii s H) at 2.
  unfold folded. now rewrite nfkc_ascii.
Qed.
End UnwrapKeeps.

(** X4: the unwrapping of line-break hyphens deletes whitespace only: the
    code points of the text that are not whitespace are all kept, in
    their order. *)
Theorem unwrap_deletes_only_whitespace :
  forall (U : Unicode), UnicodeLaws U ->
  forall s,
  filter nonspace (Re.sub hyphen_break hyphen_joined s) = filter nonspace s.
Proof.
  intros U L s. unfold Re.sub.
  apply unwrap_keeps_nonspace with (n := length s). lia.
Qed.

(** Two breaks in a row under the ASCII database. *)
Lemma unwrap_deletes_only_whitespace_witness :
  filter (@nonspace ascii_unicode)
         (Re.sub (@hyphen_break ascii_unicode) hyphen_joined broken_twice)
  = str "a-b-c".
Proof.
  apply (@unwrap_deletes_only_whitespace ascii_unicode ascii_laws broken_twice).
Defined.

(** X5: on a text of ASCII code points the normaliser keeps every code point
    that is not whitespace, and changes nothing at all when no line-break
    hyphen is found in the text. *)
Theorem normalize_ascii_text :
  forall (U : Unicode), UnicodeLaws U ->
  forall s, forallb is_ascii s = true ->
  filter nonspace (normalize_text s) = filter nonspace s
  /\ (Re.search hyphen_break s = false -> normalize_text s = s).
Proof.
  intros U L s Hs. rewrite normalize_text_folded, folded_ascii_any by assumption.
  split.
  - unfold Re.sub. apply unwrap_keeps_nonspace with (n := length s). lia.
  - apply ReFacts.sub_no_match.
Qed.

(** A line of plain text under the ASCII database. *)
Lemma normalize_ascii_text_witness :
  @normalize_text ascii_unicode (str "state-of-the-art, 2019 - 2021")
  = str "state-of-the-art, 2019 - 2021".
Proof.
  apply (@normalize_ascii_text ascii_unicode ascii_laws
           (str "state-of-the-art, 2019 - 2021")); reflexivity.
Defined.

(* ================================================================= *)
(** ** Lines and positions of the cleaned text *)

Lemma in_join c sep ls :
  In c (join sep ls) -> In c sep \/ exists l, In l ls /\ In c l.
Proof.
  induction ls as [|l ls IH]; [intros []|].
  destruct ls as [|l2 ls].
  - simpl. intros H. right. exists l. auto.
  - change (join sep (l :: l2 :: ls)) with (l ++ sep ++ join sep (l2 :: ls)).
    rewrite !in_app_iff. intros [H | [H | H]]; auto.
    + right. exists l. split; [now left | assumption].
    + destruct (IH H) as [Hs | (l' & Hl' & Hc)]; auto.
      right. exists l'. split; [now right | assumption].
Qed.

Lemma no_break_no_newline l : no_break l = true -> ~ In LF l.
Proof.
  unfold no_break. rewrite forallb_forall. intros H Hin.
  specialize (H LF Hin). discriminate.
Qed.

Section CleanedLines.
Context {U : Unicode}.

Lemma cleaned_lines_no_break x :
  Forall (fun l => no_break l = true) (splitlines (strip_noise x)).
Proof.
  rewrite strip_noise_splitlines. apply Forall_forall. intros l Hl.
  apply filter_In in Hl as [Hl _].
  pose proof (splitlines_from_no_break (substitute (normalize_text x)) false)
    as H.
  rewrite Forall_forall in H. now apply H.
Qed.

Lemma cleaned_is_join x :
  strip_noise x = join [LF] (splitlines (strip_noise x)).
Proof. rewrite strip_noise_splitlines. apply strip_noise_join. Qed.
End CleanedLines.

(** X6: the only line boundary left in the cleaned text is the newline that
    joins its lines: no carriage return, form feed, vertical tab or Unicode
    separator survives. *)
Theorem cleaned_text_breaks_are_newlines :
  forall (U : Unicode) x c,
  In c (strip_noise x) -> is_linebreak c = true -> c = LF.
Proof.
  intros U x c Hin Hbr. rewrite cleaned_is_join in Hin.
  apply in_join in Hin as [[<- | []] | (l & Hl & Hc)]; [reflexivity|].
  pose proof (cleaned_lines_no_break x) as H. rewrite Forall_forall in H.
  specialize (H l Hl). unfold no_break in H. rewrite forallb_forall in H.
  specialize (H c Hc). rewrite Hbr in H. discriminate.
Qed.

(** A text with CR LF and CR boundaries. *)
Lemma cleaned_text_breaks_witness :
  @strip_noise ascii_unicode crlf_lines
    = str "first line" ++ [LF] ++ str "second line"
  /\ (10 : char) = LF.
Proof.
  split; [reflexivity|].
  apply (@cleaned_text_breaks_are_newlines ascii_unicode crlf_lines 10);
    [|reflexivity].
  vm_compute. do 10 right. left. reflexivity.
Defined.

Lemma in_firstn (A : Type) n (l : list A) a : In a (firstn n l) -> In a l.
Proof.
  intros H. rewrite <- (firstn_skipn n l). apply in_or_app. now left.
Qed.

Section JoinedLines.

Lemma join_at (pre : list text) l post :
  exists rest,
    join [LF] (pre ++ l :: post) = concat (map with_newline pre) ++ l ++ rest.
Proof.
  induction pre as [|l0 pre IH].
  - simpl app at 1. destruct post as [|l2 post].
    + exists []. simpl. now rewrite app_nil_r.
    + exists ([LF] ++ join [LF] (l2 :: post)). reflexivity.
  - destruct IH as (rest & E). exists rest.
    assert (J : join [LF] ((l0 :: pre) ++ l :: post)
                = l0 ++ [LF] ++ join [LF] (pre ++ l :: post)).
    { destruct pre; reflexivity. }
    rewrite J, E. cbn [map concat]. unfold with_newline at 2.
    now rewrite <- !app_assoc.
Qed.

Lemma no_newline_filter (l : text) : ~ In LF l -> filter is_newline l = [].
Proof.
  intros Hl. induction l as [|c l IH]; [reflexivity|]. simpl.
  rewrite IH by (intros H; apply Hl; now right).
  unfold is_newline. destruct (N.eqb_spec LF c); [|reflexivity].
  exfalso. apply Hl. now left.
Qed.

Lemma newlines_before (pre : list text) :
  Forall (fun l => ~ In LF l) pre ->
  length (filter is_newline (concat (map with_newline pre))) = length pre.
Proof.
  induction 1 as [|l pre Hl _ IH]; [reflexivity|].
  cbn [map concat length]. unfold with_newline at 1.
  rewrite !filter_app, !length_app, IH, no_newline_filter by assumption.
  reflexivity.
Qed.

Lemma rindex_from_app_free c s p a :
  ~ In c p -> rindex_from c (s ++ p) a = rindex_from c s a.
Proof.
  intros Hp. revert a. induction s as [|x s IH]; intros a.
  - simpl. revert a. induction p as [|y p IHp]; intros a; [reflexivity|].
    simpl. rewrite IHp by (intros H; apply Hp; now right).
    destruct (N.eqb_spec y c); [|reflexivity].
    subst. exfalso. apply Hp. now left.
  - simpl. now rewrite IH.
Qed.

Lemma last_newline_of_lines (pre : list text) l0 :
  rindex_from LF (concat (map with_newline (pre ++ [l0]))) 0 =
  Some (len (concat (map with_newline (pre ++ [l0]))) - 1)%Z.
Proof.
  rewrite map_app, concat_app. cbn [map concat]. rewrite app_nil_r.
  unfold with_newline at 2 4. rewrite !app_assoc, PyFacts.rindex_from_snoc.
  rewrite N.eqb_refl. f_equal. unfold len. rewrite (length_app _ [LF]).
  simpl length. lia.
Qed.

(** In joined lines without inner newline, position [j] of line [|pre|]
    is at line [|pre| + 1], column [j + 1]. *)
Lemma idx_to_line_col_join (pre : list text) l post j :
  Forall (fun l => ~ In LF l) (pre ++ [l]) -> (j <= length l)%nat ->
  _idx_to_line_col (join [LF] (pre ++ l :: post))
    (Z.of_nat (length (concat (map with_newline pre)) + j))
  = (Z.of_nat (length pre) + 1, Z.of_nat j + 1)%Z.
Proof.
  intros Hall Hj. apply Forall_app in Hall as [Hpre Hl].
  inversion Hl as [|? ? Hl' _]; subst.
  destruct (join_at pre l post) as (rest & E). rewrite E.
  set (B := concat (map with_newline pre)) in *.
  assert (Hlen : (Z.of_nat (length B + j) <= len (B ++ l ++ rest))%Z).
  { unfold len. rewrite !length_app. lia. }
  assert (F : firstn (length B + j) (B ++ l ++ rest) = B ++ firstn j l).
  { rewrite firstn_app_2, firstn_app.
    replace (j - length l)%nat with 0%nat by lia.
    now rewrite firstn_O, app_nil_r. }
  unfold _idx_to_line_col, count, rfind.
  rewrite PyFacts.slice_0, !PyFacts.bound_inside by lia.
  rewrite Nat2Z.id, F. change (N.eqb LF) with is_newline. f_equal.
  - rewrite filter_app, length_app. subst B. rewrite newlines_before by auto.
    rewrite no_newline_filter
      by (intros H; apply Hl'; now apply (in_firstn j)).
    simpl. lia.
  - rewrite rindex_from_app_free
      by (intros H; apply Hl'; now apply (in_firstn j)).
    subst B. destruct pre as [|l1 pre1]; [simpl; lia|].
    destruct (@exists_last _ (l1 :: pre1)) as (pre' & l0 & ->);
      [discriminate|].
    rewrite last_newline_of_lines. unfold len. lia.
Qed.
End JoinedLines.

(** X7: in the cleaned text, position [j] of the [k]-th line (from 0) is
    reported as line [k + 1], column [j + 1]: the line numbers of the report
    are the line numbers of the cleaned text. *)
Theorem cleaned_position_line_col :
  forall (U : Unicode) x k l j,
  nth_error (splitlines (strip_noise x)) k = Some l -> (j <= length l)%nat ->
  _idx_to_line_col (strip_noise x)
    (Z.of_nat (line_offset (splitlines (strip_noise x)) k + j))
  = (Z.of_nat k + 1, Z.of_nat j + 1)%Z.
Proof.
  intros U x k l j Hk Hj.
  pose proof (cleaned_lines_no_break x) as Hnb.
  rewrite (cleaned_is_join x) at 1. unfold line_offset.
  destruct (nth_error_split _ _ Hk) as (pre & post & E & Hlen).
  rewrite E in *. rewrite <- Hlen.
  rewrite firstn_app, Nat.sub_diag, firstn_all, firstn_O, app_nil_r.
  apply idx_to_line_col_join; auto.
  apply Forall_forall. intros l' Hl'. apply no_break_no_newline.
  rewrite Forall_forall in Hnb. apply Hnb.
  apply in_app_iff in Hl' as [H | [<- | []]]; apply in_app_iff; simpl; auto.
Qed.

(** The "s" of "second line" in a cleaned two-line text. *)
Lemma cleaned_position_witness :
  _idx_to_line_col (@strip_noise ascii_unicode crlf_lines) 11 = (2, 1)%Z.
Proof.
  apply (@cleaned_position_line_col ascii_unicode crlf_lines 1
           (str "second line") 0).
  - reflexivity.
  - simpl. lia.
Defined.

(* ================================================================= *)
(** ** More on the reporter *)

Lemma index_from_spec c :
  forall s a,
  match index_from c s a with
  | Some i => exists p q, s = p ++ c :: q /\ ~ In c p /\ i = (a + len p)%Z
  | None => ~ In c s
  end.
Proof.
  induction s as [|x s IH]; intros a; simpl; [tauto|].
  destruct (N.eqb_spec x c) as [-> | Hne].
  - exists [], s. unfold len. simpl. repeat split; auto. lia.
  - specialize (IH (a + 1)%Z). destruct (index_from c s (a + 1)).
    + destruct IH as (p & q & -> & Hp & ->). exists (x :: p), q.
      repeat split; auto.
      * intros [E | H]; auto.
      * unfold len. simpl length. lia.
    + intros [E | H]; auto.
Qed.

Lemma rindex_from_spec c :
  forall s a,
  match rindex_from c s a with
  | Some i => exists p q, s = p ++ c :: q /\ ~ In c q /\ i = (a + len p)%Z
  | None => ~ In c s
  end.
Proof.
  induction s as [|x s IH]; intros a; simpl; [tauto|].
  specialize (IH (a + 1)%Z). destruct (rindex_from c s (a + 1)).
  - destruct IH as (p & q & -> & Hq & ->). exists (x :: p), q.
    repeat split; auto. unfold len. simpl length. lia.
  - destruct (N.eqb_spec x c) as [-> | Hne].
    + exists [], s. unfold len. simpl. repeat split; auto. lia.
    + intros [E | H]; auto.
Qed.

Lemma slice_middle before line after :
  slice (before ++ line ++ after) (len before) (len (before ++ line)) = line.
Proof.
  unfold slice, len.
  rewrite !PyFacts.bound_inside by (unfold len; rewrite !length_app; lia).
  rewrite Nat2Z.id, skipn_app, skipn_all, Nat.sub_diag. simpl.
  replace (Z.to_nat _) with (length line) by (rewrite length_app; lia).
  now rewrite firstn_app, firstn_all, Nat.sub_diag, firstn_O, app_nil_r.
Qed.

(** A text cut at an offset: the line around the cut. *)
Lemma line_around_cut (F S : text) :
  let text := F ++ S in
  let off := len F in
  let ls := (match rindex_from LF F 0 with Some i => i | None => -1 end + 1)%Z in
  let f := match index_from LF S off with Some i => i | None => (-1)%Z end in
  let le := if (f =? -1)%Z then len text else f in
  exists before line after,
    text = before ++ line ++ after
    /\ len before = ls /\ len (before ++ line) = le
    /\ ~ In LF line
    /\ (before = [] \/ exists p, before = p ++ [LF])
    /\ (after = [] \/ exists q, after = LF :: q)
    /\ (len before <= off <= len (before ++ line))%Z.
Proof.
  intros text off ls f le. subst text off ls f le.
  pose proof (rindex_from_spec LF F 0) as Hr.
  pose proof (index_from_spec LF S (len F)) as Hf.
  destruct (rindex_from LF F 0) as [r|];
    destruct (index_from LF S (len F)) as [f|].
  - destruct Hr as (p & q & -> & Hq & ->).
    destruct Hf as (p' & q' & -> & Hp' & ->).
    exists (p ++ [LF]), (q ++ p'), (LF :: q').
    replace (len (p ++ LF :: q) + len p' =? -1)%Z with false
      by (symmetry; apply Z.eqb_neq; unfold len; lia).
    unfold len. rewrite ?length_app. simpl length. rewrite ?length_app.
    repeat split; try lia; eauto.
    + now rewrite <- !app_assoc.
    + intros H. apply in_app_iff in H as [H | H]; auto.
  - destruct Hr as (p & q & -> & Hq & ->).
    exists (p ++ [LF]), (q ++ S), [].
    change ((-1 =? -1)%Z) with true. cbv iota.
    unfold len. rewrite ?length_app. simpl length. rewrite ?length_app.
    repeat split; try lia; eauto.
    + now rewrite app_nil_r, <- !app_assoc.
    + intros H. apply in_app_iff in H as [H | H]; auto.
  - destruct Hf as (p' & q' & -> & Hp' & ->).
    exists [], (F ++ p'), (LF :: q').
    replace (len F + len p' =? -1)%Z with false
      by (symmetry; apply Z.eqb_neq; unfold len; lia).
    unfold len. simpl length. rewrite ?length_app.
    repeat split; try lia; eauto.
    + simpl. now rewrite <- !app_assoc.
    + intros H. apply in_app_iff in H as [H | H]; auto.
  - exists [], (F ++ S), [].
    change ((-1 =? -1)%Z) with true. cbv iota.
    unfold len. simpl length. rewrite ?length_app.
    repeat split; try lia; auto.
    + simpl. now rewrite app_nil_r.
    + intros H. apply in_app_iff in H as [H | H]; auto.
Qed.

(** X8: for an offset within the text, the printed source line is the whole
    line around the offset: it starts after the last newline before the
    offset (or at the start of the text), ends at the next newline (or at
    the end), holds no newline, and is printed without its trailing
    carriage returns. *)
Theorem rendered_line_is_whole_line :
  forall text i m,
  let off := getattr (offset m) 0%Z in
  (0 <= off <= len text)%Z ->
  let b := render text i m in
  exists before line after,
    text = before ++ line ++ after
    /\ len before = b_line_start b
    /\ len (before ++ line) = b_line_end b
    /\ ~ In LF line
    /\ (before = [] \/ exists p, before = p ++ [LF])
    /\ (after = [] \/ exists q, after = LF :: q)
    /\ b_line_text b = rstrip_of is_crlf line
    /\ (len before <= off <= len (before ++ line))%Z.
Proof.
  intros text i m off Hoff b. subst b.
  cbv beta iota zeta delta
    [render _idx_to_line_col b_line_start b_line_end b_line_text].
  fold off. unfold rfind, find.
  rewrite PyFacts.slice_0, !PyFacts.bound_inside by lia.
  set (e := Z.to_nat off).
  assert (Hfl : len (firstn e text) = off).
  { unfold len in *. rewrite length_firstn. lia. }
  pose proof (line_around_cut (firstn e text) (skipn e text)) as H.
  cbv zeta in H. rewrite (firstn_skipn e text), Hfl in H.
  destruct H as (before & line & after & Et & Hs & He & Hl & Hb & Ha & Ho).
  exists before, line, after. repeat split; auto; try lia.
  rewrite <- Hs, <- He. rewrite Et at 1. f_equal. apply slice_middle.
Qed.

(** The line of offset 5 in "abc\ndef\nghi" is "def". *)
Lemma rendered_line_witness :
  exists before line after,
    abc_def_ghi = before ++ line ++ after
    /\ len before = b_line_start (render abc_def_ghi 1 (issue_at 5 "R"))
    /\ len (before ++ line) = b_line_end (render abc_def_ghi 1 (issue_at 5 "R"))
    /\ ~ In LF line
    /\ (before = [] \/ exists p, before = p ++ [LF])
    /\ (after = [] \/ exists q, after = LF :: q)
    /\ b_line_text (render abc_def_ghi 1 (issue_at 5 "R"))
       = rstrip_of is_crlf line
    /\ (len before <= 5 <= len (before ++ line))%Z.
Proof.
  apply (rendered_line_is_whole_line abc_def_ghi 1 (issue_at 5 "R")).
  vm_compute. split; discriminate.
Defined.

(** X9: for an offset that is not negative, the header of a printed issue
    holds the line and the column of the offset, both at least 1, and the
    first caret stands in that column: the caret line is [col - 1] blanks
    followed by carets. *)
Theorem caret_under_column :
  forall text i m,
  let off := getattr (offset m) 0%Z in
  (0 <= off)%Z ->
  let b := render text i m in
  (b_line b, b_col b) = _idx_to_line_col text off
  /\ (1 <= b_line b)%Z /\ (1 <= b_col b)%Z
  /\ b_col b = (off - b_line_start b + 1)%Z
  /\ exists carets,
       b_caret b = repeat 32 (Z.to_nat (b_col b - 1)) ++ repeat 94 (S carets).
Proof.
  intros text i m off Hoff b. subst b.
  cbv beta iota zeta delta
    [render _idx_to_line_col b_line b_col b_line_start b_caret].
  fold off.
  pose proof (PyFacts.rfind_range text LF off) as Hr.
  pose proof (PyFacts.bound_range off (PyFacts.len_nonneg text)) as Hb.
  assert (Hbo : (bound (len text) off <= off)%Z).
  { unfold bound. destruct (off <? 0)%Z eqn:E; lia. }
  repeat split; try (unfold count; lia).
  set (n := Z.max 1 (or_int (getattr (errorLength m) 1%Z) 1%Z)).
  exists (Z.to_nat n - 1)%nat. unfold times. f_equal.
  - f_equal. lia.
  - f_equal. subst n. lia.
Qed.

(** Offset 9 of "abc\ndef\nghi" is line 3, column 2. *)
Lemma caret_under_column_witness :
  (b_line (render abc_def_ghi 1 (issue_at 9 "R")),
   b_col (render abc_def_ghi 1 (issue_at 9 "R")))
  = _idx_to_line_col abc_def_ghi 9.
Proof.
  apply (caret_under_column abc_def_ghi 1 (issue_at 9 "R")). discriminate.
Defined.

Lemma firstn_le_app (A : Type) (l : list A) e1 e2 :
  (e1 <= e2)%nat -> exists mid, firstn e2 l = firstn e1 l ++ mid.
Proof.
  intros H. exists (skipn e1 (firstn e2 l)).
  rewrite <- (firstn_skipn e1 (firstn e2 l)) at 1.
  now rewrite firstn_firstn, Nat.min_l.
Qed.

(** A later offset is not earlier in (line, column) order. *)
Lemma line_col_monotone text o1 o2 :
  (0 <= o1 <= o2)%Z ->
  (fst (_idx_to_line_col text o1) < fst (_idx_to_line_col text o2))%Z
  \/ (fst (_idx_to_line_col text o1) = fst (_idx_to_line_col text o2)
      /\ (snd (_idx_to_line_col text o1) <= snd (_idx_to_line_col text o2))%Z).
Proof.
  intros Ho. unfold _idx_to_line_col, count, rfind. cbn [fst snd].
  rewrite !PyFacts.slice_0.
  rewrite (@PyFacts.bound_inside (len text) 0)
    by (pose proof (PyFacts.len_nonneg text); lia).
  assert (Hb : (Z.to_nat (bound (len text) o1)
                <= Z.to_nat (bound (len text) o2))%nat).
  { unfold bound. destruct (Z.ltb_spec o1 0), (Z.ltb_spec o2 0); lia. }
  destruct (firstn_le_app text Hb) as (mid & ->).
  generalize (firstn (Z.to_nat (bound (len text) o1)) text). intros F.
  change (N.eqb LF) with is_newline.
  rewrite filter_app, length_app.
  destruct (in_dec N.eq_dec LF mid) as [Hin | Hnot].
  - left.
    assert (1 <= length (filter is_newline mid))%nat;
      [|unfold Py.char, Py.text in *; lia].
    assert (Hf : In LF (filter is_newline mid)).
    { apply filter_In. split; [assumption | apply N.eqb_refl]. }
    destruct (filter is_newline mid); [contradiction | simpl; lia].
  - right. rewrite (@no_newline_filter mid Hnot).
    rewrite (@rindex_from_app_free LF F mid 0 Hnot).
    simpl length. unfold Py.char, Py.text in *. split; lia.
Qed.

Lemma render_all_nth text :
  forall errors i0 k,
  nth_error (render_all text i0 errors) k =
  option_map (fun x => render text (i0 + k) (snd x)) (nth_error errors k).
Proof.
  intros es. induction es as [|[s m] es IH]; intros i0 k.
  - destruct k; reflexivity.
  - destruct k as [|k]; cbn [render_all nth_error option_map snd].
    + now rewrite Nat.add_0_r.
    + rewrite IH. now rewrite Nat.add_succ_r.
Qed.

Lemma printed_blocks (U : Unicode) text allowed raw :
  printed (compute_language_score text allowed raw) =
  pretty_print_errors (errors (compute_language_score text allowed raw)) text.
Proof.
  cbv beta iota zeta delta [compute_language_score printed errors].
  destruct (sort_by offset_key (collect text allowed raw)); reflexivity.
Qed.

(** X10: the report prints one block per reported issue, numbered from 1 in
    the order of the issues, and when no offset is negative the blocks
    follow the reading order: the line numbers never decrease, and within a
    line the columns never decrease. *)
Theorem report_in_reading_order :
  forall (U : Unicode) text allowed raw,
  (forall m, In m raw -> (0 <= getattr (offset m) 0)%Z) ->
  let r := compute_language_score text allowed raw in
  (forall k,
     nth_error (printed r) k =
     option_map (fun x => render text (S k) (snd x)) (nth_error (errors r) k))
  /\ (forall k a b,
        nth_error (printed r) k = Some a ->
        nth_error (printed r) (S k) = Some b -> reading_order a b).
Proof.
  intros U text allowed raw Hpos r.
  assert (Hn : forall k,
            nth_error (printed r) k =
            option_map (fun x => render text (S k) (snd x))
                       (nth_error (errors r) k)).
  { intros k. subst r. rewrite printed_blocks. unfold pretty_print_errors.
    now rewrite render_all_nth. }
  split; [exact Hn|].
  intros k a b Ha Hb. rewrite Hn in Ha, Hb.
  destruct (nth_error (errors r) k) as [x|] eqn:Ex; [|discriminate].
  destruct (nth_error (errors r) (S k)) as [y|] eqn:Ey; [|discriminate].
  injection Ha as <-. injection Hb as <-.
  assert (Hxy : (offset_key x <= offset_key y)%Z).
  { subst r. cbv beta iota zeta delta [compute_language_score errors] in Ex, Ey.
    pose proof (sort_by_sorted offset_key (collect text allowed raw)) as Hs.
    eapply (sorted_neighbours Hs); eassumption. }
  assert (Hx : (0 <= offset_key x)%Z).
  { apply Hpos. apply nth_error_In in Ex.
    assert (Hm : In (snd x) (map snd (errors r))) by now apply in_map.
    subst r. cbv beta iota zeta delta [compute_language_score errors] in Hm.
    apply (Permutation_in _ (Permutation_map snd
             (Permutation_sym (sort_by_perm offset_key _)))) in Hm.
    rewrite collect_retained in Hm. now apply filter_In in Hm. }
  unfold offset_key in Hxy, Hx.
  pose proof (@line_col_monotone text _ _ (conj Hx Hxy)) as H.
  unfold reading_order.
  cbv beta iota zeta delta [render b_line b_col].
  unfold _idx_to_line_col in *. cbn [fst snd] in H. exact H.
Qed.

(** The second block of the report of [unordered] is not before the
    first. *)
Lemma report_in_reading_order_witness :
  reading_order
    (render abc_def_ghi 1 (issue_at 4 "A"))
    (render abc_def_ghi 2 (issue_at 9 "B")).
Proof.
  apply (@report_in_reading_order ascii_unicode abc_def_ghi [] unordered)
    with (k := 0%nat).
  - intros m Hm. simpl in Hm.
    repeat (destruct Hm as [<- | Hm]; [discriminate|]). contradiction.
  - reflexivity.
  - reflexivity.
Defined.

(* ================================================================= *)
(** ** The command line: allow-list and read-back of the score *)

Section MainFacts.
Context {U : Unicode}.
Variable extract_entities : text -> list text.
Variable working_set : list text.
Variable check : text -> list Match.

Lemma allow_list_entries raw e :
  In e (extract_entities raw) \/ In e working_set
  \/ e = str "yourTerm" \/ e = str "AnotherAcronym" ->
  In (lower e) (allow_list extract_entities working_set raw).
Proof.
  unfold allow_list, get_installed_libraries. rewrite !in_app_iff.
  intros [H | [H | [-> | ->]]].
  - left. left. now apply in_map.
  - left. right. now apply in_map.
  - right. now left.
  - right. right. now left.
Qed.
End MainFacts.

(** X11: an issue of the run whose flagged snippet, stripped and
    lower-cased, is the lower-cased form of an extracted entity, of the
    project name of an installed distribution or of one of the two manual
    terms is never reported. *)
Theorem known_terms_are_suppressed :
  forall (U : Unicode) extract_entities working_set check raw m e,
  In e (extract_entities raw) \/ In e working_set
  \/ e = str "yourTerm" \/ e = str "AnotherAcronym" ->
  (0 <= getattr (errorLength m) 0)%Z ->
  lower (strip (flagged_snippet (strip_noise raw) m)) = lower e ->
  ~ In m (map snd (errors (main extract_entities working_set check raw))).
Proof.
  intros U extract_entities working_set check raw m e He Hlen Hlow Hin.
  unfold main in Hin. apply retained_not_allowed in Hin as [Hin _].
  rewrite snippet_of_flagged, Hlow in Hin by assumption.
  apply (@allow_list_entries U extract_entities working_set raw e) in He.
  apply mem_In in He. congruence.
Qed.

(** "NumPy" is flagged in a text where spaCy finds the entity "NUMPY". *)
Lemma known_terms_witness :
  ~ In daily_issue
       (map snd (errors (@main ascii_unicode (fun _ => [str "NUMPY"]) []
                           (fun _ => [daily_issue]) daily_text))).
Proof.
  apply (@known_terms_are_suppressed ascii_unicode (fun _ => [str "NUMPY"]) []
           (fun _ => [daily_issue]) daily_text daily_issue (str "NUMPY")).
  - left. left. reflexivity.
  - discriminate.
  - reflexivity.
Defined.

Lemma prefix_of_in p s c : prefix_of p s = true -> In c p -> In c s.
Proof.
  revert s. induction p as [|a p IH]; intros s H Hc; [contradiction|].
  destruct s as [|b s]; [discriminate|]. simpl in H.
  apply andb_true_iff in H as [Hab H]. apply N.eqb_eq in Hab. subst b.
  destruct Hc as [<- | Hc]; [now left | right; now apply IH].
Qed.

(** A text that contains [sub] holds every code point of [sub]. *)
Lemma contains_in sub s c : contains sub s = true -> In c sub -> In c s.
Proof.
  induction s as [|b s IH]; simpl; intros H Hc.
  - rewrite orb_false_r in H. now apply (@prefix_of_in sub [] c).
  - apply orb_true_iff in H as [H | H].
    + now apply (@prefix_of_in sub (b :: s) c).
    + right. now apply IH.
Qed.

Lemma prefix_of_app p s r : prefix_of p s = true -> prefix_of p (s ++ r) = true.
Proof.
  revert s. induction p as [|a p IH]; intros s H; [reflexivity|].
  destruct s as [|b s]; [discriminate|]. simpl in *.
  apply andb_true_iff in H as [-> H]. now rewrite IH.
Qed.

Lemma contains_app sub s r : contains sub s = true -> contains sub (s ++ r) = true.
Proof.
  induction s as [|b s IH]; simpl; intros H.
  - rewrite orb_false_r in H. destruct sub; [|discriminate].
    destruct r; reflexivity.
  - apply orb_true_iff in H as [H | H]; apply orb_true_iff.
    + left. now apply (@prefix_of_app sub (b :: s) r).
    + right. now apply IH.
Qed.

Lemma last_item_app (A : Type) (l : list A) x : last_item (l ++ [x]) = Some x.
Proof.
  induction l as [|a l IH]; [reflexivity|].
  simpl. rewrite IH. now destruct (l ++ [x]) eqn:E; [destruct l|].
Qed.

Lemma last_item_none (A : Type) (l : list A) : last_item l = None -> l = [].
Proof.
  induction l as [|a l IH]; [reflexivity|]. simpl.
  destruct l; [discriminate|]. intros H. discriminate (IH H).
Qed.

Lemma before_first_app c (s r : text) :
  ~ In c s -> before_first c (s ++ c :: r) = s.
Proof.
  induction s as [|x s IH]; simpl; intros H.
  - now rewrite N.eqb_refl.
  - destruct (N.eqb_spec x c) as [-> | _]; [exfalso; auto|].
    rewrite IH; auto.
Qed.

Lemma lstrip_of_head p c s : p c = false -> lstrip_of p (c :: s) = c :: s.
Proof. intros H. simpl. now rewrite H. Qed.

Lemma rstrip_of_none p (s : text) :
  (forall c, In c s -> p c = false) -> rstrip_of p s = s.
Proof.
  intros H. unfold rstrip_of. destruct (rev s) as [|c r] eqn:E.
  - simpl. rewrite <- (rev_involutive s), E. reflexivity.
  - rewrite lstrip_of_head.
    + now rewrite <- E, rev_involutive.
    + apply H. apply in_rev. rewrite E. now left.
Qed.

Section SplitFacts.
Context {U : Unicode}.

Lemma split_ws_head c s : isspace c = false -> split_ws (c :: s) <> [].
Proof.
  intros Hc. simpl. rewrite Hc. destruct s as [|c' s]; [discriminate|].
  destruct (isspace c'); [discriminate|].
  destruct (split_ws (c' :: s)); discriminate.
Qed.

(** A line with a code point that is not whitespace has a token. *)
Lemma split_ws_nonempty s c :
  In c s -> isspace c = false -> split_ws s <> [].
Proof.
  induction s as [|x s IH]; [contradiction|]. intros Hin Hc.
  destruct (isspace x) eqn:Ex.
  - simpl. rewrite Ex. apply IH; auto. destruct Hin as [-> | H]; auto.
    congruence.
  - now apply split_ws_head.
Qed.

Lemma split_ws_token tok :
  tok <> [] -> (forall c, In c tok -> isspace c = false) ->
  split_ws tok = [tok].
Proof.
  induction tok as [|c tok IH]; [contradiction|]. intros _ H.
  cbn [split_ws]. rewrite (H c) by now left.
  destruct tok as [|c' tok]; [reflexivity|].
  rewrite (H c') by (right; now left).
  rewrite IH; [reflexivity | discriminate |].
  intros x Hx. apply H. now right.
Qed.

Lemma split_ws_app_space pre sp rest :
  isspace sp = true ->
  split_ws (pre ++ sp :: rest) = split_ws pre ++ split_ws rest.
Proof.
  intros Hsp. induction pre as [|c pre IH].
  - simpl. now rewrite Hsp.
  - cbn [app split_ws]. destruct (isspace c) eqn:Ec; [exact IH|].
    destruct pre as [|c' pre].
    + cbn [app]. rewrite Hsp. cbn [app] in IH. cbn [split_ws] in IH.
      rewrite Hsp in IH. simpl. now rewrite Hsp.
    + cbn [app]. cbn [app] in IH. destruct (isspace c') eqn:Ec'.
      * now rewrite IH.
      * rewrite IH. pose proof (@split_ws_head c' pre Ec') as Hne.
        destruct (split_ws (c' :: pre)); [contradiction | reflexivity].
Qed.
End SplitFacts.

(** X12: for a marker that holds a code point that is not whitespace,
    [extract_pct] raises no IndexError, whatever the output; and it
    answers 0.0 when no line of the output contains the marker. *)
Theorem extract_pct_answers :
  forall (U : Unicode) float_of_text output marker c,
  In c marker -> isspace c = false ->
  extract_pct float_of_text output marker <> None
  /\ ((forall line, In line (splitlines output) ->
                    contains marker line = false) ->
      extract_pct float_of_text output marker = Some 0%float).
Proof.
  intros U float_of_text output marker c Hc Hsp. unfold extract_pct.
  induction (splitlines output) as [|line lines [IH1 IH2]].
  - split; [discriminate | reflexivity].
  - cbn [extract_pct_lines]. split.
    + destruct (contains marker line) eqn:E; [|exact IH1].
      pose proof (@contains_in marker line c E Hc) as Hin.
      pose proof (@split_ws_nonempty U line c Hin Hsp) as Hne.
      destruct (last_item (split_ws line)) as [tok|] eqn:El.
      * destruct (float_of_text _); discriminate.
      * exfalso. now apply Hne, last_item_none.
    + intros H. rewrite (H line) by now left.
      apply IH2. intros l Hl. apply H. now right.
Qed.

(** An output without the marker, under the ASCII database. *)
Lemma extract_pct_witness :
  @extract_pct ascii_unicode (fun _ => None) (str "nothing here")
    (str "Quality Score") = Some 0%float.
Proof.
  apply (@extract_pct_answers ascii_unicode (fun _ => None)
           (str "nothing here") (str "Quality Score") 81).
  - left. reflexivity.
  - reflexivity.
  - intros line [<- | []]. reflexivity.
Defined.

(** The precondition is needed: for the marker " " a blank line raises. *)
Lemma extract_pct_blank_marker :
  @extract_pct ascii_unicode (fun _ => None) (str "  ") (str " ") = None.
Proof. reflexivity. Qed.

Lemma numeric_char_range c :
  numeric_char c = true -> 43 <= c <= 110 /\ c <> 47 /\ c <> 81.
Proof.
  unfold numeric_char, in_range.
  rewrite !orb_true_iff, !andb_true_iff, !N.leb_le, !N.eqb_eq. lia.
Qed.

Lemma numeric_no_break s : forallb numeric_char s = true -> no_break s = true.
Proof.
  unfold no_break. apply forallb_impl. intros c Hc.
  apply numeric_char_range in Hc. unfold is_linebreak.
  repeat match goal with
         | |- context [c =? ?k] => destruct (N.eqb_spec c k); [lia|]
         end.
  reflexivity.
Qed.

Lemma numeric_not_in s c :
  forallb numeric_char s = true -> c < 43 \/ c = 47 \/ c = 81 -> ~ In c s.
Proof.
  intros H Hc Hin. rewrite forallb_forall in H.
  apply H, numeric_char_range in Hin. lia.
Qed.

Lemma no_break_app a b : no_break a = true -> no_break b = true ->
  no_break (a ++ b) = true.
Proof. unfold no_break. intros Ha Hb. now rewrite forallb_app, Ha, Hb. Qed.

(** The lines of a text that starts with a line and its newline. *)
Lemma splitlines_line l rest :
  no_break l = true -> splitlines (with_newline l ++ rest) = l :: splitlines rest.
Proof.
  intros H. unfold with_newline. rewrite <- app_assoc.
  rewrite splitlines_app_line by assumption.
  assert (E : splitlines ([LF] ++ rest) = [] :: splitlines rest) by reflexivity.
  now rewrite E, app_nil_r.
Qed.

Section ReadBack.
Context {U : Unicode} {L : UnicodeLaws U}.
Variable format_int : nat -> text.
Variable format_1f : float -> text.
Variable float_of_text : text -> option float.
Hypothesis int_numeric : forall n, forallb numeric_char (format_int n) = true.
Hypothesis float_numeric : forall x, forallb numeric_char (format_1f x) = true.

Lemma numeric_not_space c : numeric_char c = true -> isspace c = false.
Proof.
  intros H. apply numeric_char_range in H.
  rewrite isspace_ascii by (apply N.ltb_lt; lia).
  unfold ascii_isspace, in_range.
  rewrite !orb_false_iff, !andb_false_iff, !N.leb_gt. lia.
Qed.

(** A summary line before the score line does not hold the marker. *)
Lemma label_without_marker label number :
  forallb (differs 81) label = true -> forallb numeric_char number = true ->
  contains (str "Quality Score") (label ++ number) = false.
Proof.
  intros Hl Hn. destruct (contains _ _) eqn:E; [|reflexivity]. exfalso.
  apply (@contains_in _ _ 81) in E; [|now left].
  apply in_app_iff in E as [E | E].
  - rewrite forallb_forall in Hl. specialize (Hl 81 E). discriminate.
  - revert E. apply numeric_not_in; auto.
Qed.

(** The token that [extract_pct] reads on the score line. *)
Lemma score_line_token number :
  forallb numeric_char number = true ->
  last_item (split_ws (str "Language Quality Score:   " ++ number ++ str "/100"))
  = Some (number ++ str "/100").
Proof.
  intros Hn.
  change (str "Language Quality Score:   " ++ number ++ str "/100")
    with (str "Language Quality Score:  " ++ 32 :: number ++ str "/100").
  rewrite split_ws_app_space by now rewrite isspace_ascii.
  rewrite (split_ws_token (tok := number ++ str "/100")).
  - apply last_item_app.
  - destruct number; discriminate.
  - intros c Hc. apply in_app_iff in Hc as [Hc | Hc].
    + rewrite forallb_forall in Hn. now apply numeric_not_space, Hn.
    + rewrite isspace_ascii; simpl in Hc;
        repeat (destruct Hc as [<- | Hc]; [reflexivity|]); contradiction.
Qed.

Lemma read_back r rest :
  extract_pct float_of_text (stdout format_int format_1f r rest)
    (str "Quality Score")
  = Some match float_of_text (format_1f (score r)) with
         | Some v => v
         | None => 0%float
         end.
Proof.
  unfold extract_pct, stdout, summary. cbn [map concat].
  rewrite <- !app_assoc.
  rewrite 5 splitlines_line
    by (repeat first [ reflexivity
                     | apply numeric_no_break; solve [auto]
                     | apply no_break_app ]).
  cbn [extract_pct_lines].
  rewrite !label_without_marker by (auto; reflexivity).
  rewrite contains_app by reflexivity.
  rewrite score_line_token by auto.
  assert (Hs : existsb (N.eqb 47) (format_1f (score r) ++ str "/100") = true).
  { rewrite existsb_app. apply orb_true_iff. right. reflexivity. }
  rewrite Hs.
  change (str "/100") with (47 :: str "100").
  rewrite before_first_app by (apply numeric_not_in; auto).
  rewrite rstrip_of_none.
  - destruct (float_of_text _); reflexivity.
  - intros c Hc. apply N.eqb_neq. intros <-. revert Hc.
    apply numeric_not_in; auto. left. lia.
Qed.
End ReadBack.

(** X13: the caller reads the printed score back: when the number formats
    write digits, points, signs and the letters of "inf" and "nan" only,
    [extract_pct] on the output of the scorer with the marker
    "Quality Score" is the float of the score as printed with one decimal
    (0.0 if that does not parse), whatever the issues printed after the
    summary. *)
Theorem caller_reads_printed_score :
  forall (U : Unicode), UnicodeLaws U ->
  forall format_int format_1f float_of_text r rest,
  (forall n, forallb numeric_char (format_int n) = true) ->
  (forall x, forallb numeric_char (format_1f x) = true) ->
  extract_pct float_of_text (stdout format_int format_1f r rest)
    (str "Quality Score")
  = Some match float_of_text (format_1f (score r)) with
         | Some v => v
         | None => 0%float
         end.
Proof.
  intros U L format_int format_1f float_of_text r rest Hi Hf.
  now apply read_back.
Qed.

(** A run that prints 3 words, no error and the score "100.0". *)
Lemma caller_reads_witness :
  @extract_pct ascii_unicode (fun _ => Some 100%float)
    (@stdout (fun _ => str "3") (fun _ => str "100.0")
       (@compute_language_score ascii_unicode (str "hello big world") [] [])
       [])
    (str "Quality Score")
  = Some 100%float.
Proof.
  apply (@caller_reads_printed_score ascii_unicode ascii_laws
           (fun _ => str "3") (fun _ => str "100.0")
           (fun _ => Some 100%float)); reflexivity.
Defined.

(* ================================================================= *)
(** ** What is left of e-mail addresses and URLs *)

Lemma occurs_in_app_l w a b : occurs w a -> occurs w (a ++ b).
Proof.
  intros (x & y & ->). exists x, (y ++ b). now rewrite <- !app_assoc.
Qed.

Lemma occurs_in_app_r w a b : occurs w b -> occurs w (a ++ b).
Proof.
  intros (x & y & ->). exists (a ++ x), y. now rewrite <- !app_assoc.
Qed.

(** A text that occurs around a code point it does not hold occurs on one
    side of it. *)
Lemma occurs_split w A c B :
  w <> [] -> ~ In c w -> occurs w (A ++ c :: B) -> occurs w A \/ occurs w B.
Proof.
  intros Hne Hc (a & b & E). symmetry in E.
  apply app_eq_app in E as (l & [[-> E] | [-> E]]).
  - destruct l as [|x l].
    + simpl in E. destruct w as [|x w]; [contradiction|].
      injection E as -> _. exfalso. apply Hc. now left.
    + injection E as -> ->. right. now exists l, b.
  - symmetry in E. apply app_eq_app in E as (l2 & [[-> E] | [-> E]]).
    + left. exists a, l2. reflexivity.
    + destruct l2 as [|x l2].
      * left. exists a, []. now rewrite !app_nil_r.
      * injection E as -> _. exfalso. apply Hc, in_app_iff. right. now left.
Qed.

Section NoTokenLeft.
Context {U : Unicode} {L : UnicodeLaws U}.

Lemma blank_is_space : isspace 32 = true.
Proof. now rewrite isspace_ascii. Qed.

Lemma den_nonspace r w :
  classes_nonspace r -> ReSem.den r w -> forall c, In c w -> isspace c = false.
Proof.
  intros Hr Hd. induction Hd as [p c Hc | p n w Hw _ | p | p c Hc | r w _ IH
                                | r1 r2 w1 w2 _ IH1 _ IH2]; simpl in Hr.
  - intros x [<- | []]. auto.
  - rewrite forallb_forall in Hw. intros x Hx. auto.
  - intros x [].
  - intros x [<- | []]. auto.
  - auto.
  - destruct Hr as [H1 H2]. intros x Hx.
    apply in_app_iff in Hx as [Hx | Hx]; auto.
Qed.

(** A text without whitespace at the start of the output of a replacement
    is at the start of its input. *)
Lemma replaced_prefix tok s o :
  Replaced tok [32] s o ->
  forall w b, (forall c, In c w -> isspace c = false) -> o = w ++ b ->
  exists b', s = w ++ b'.
Proof.
  induction 1 as [| c s o _ _ IH | t rest o _ _ _]; intros w b Hw E.
  - destruct w; [|discriminate]. now exists [].
  - destruct w as [|x w]; [now exists (c :: s)|].
    injection E as <- E.
    destruct (IH w b) as (b' & ->); auto.
    + intros y Hy. apply Hw. now right.
    + now exists b'.
  - destruct w as [|x w]; [now exists (t ++ rest)|].
    injection E as <- _. pose proof blank_is_space as Hb.
    rewrite Hw in Hb by now left. discriminate.
Qed.

(** A text without whitespace that occurs in the output of a replacement
    occurs in its input. *)
Lemma replaced_occurs tok s o :
  Replaced tok [32] s o ->
  forall w, w <> [] -> (forall c, In c w -> isspace c = false) ->
  occurs w o -> occurs w s.
Proof.
  induction 1 as [| c s o Hno Hr IH | t rest o Ht Hr IH]; intros w Hne Hw Ho.
  - destruct Ho as (a & b & E). destruct a, w; try discriminate.
    contradiction.
  - destruct Ho as ([|x a] & b & E).
    + destruct (replaced_prefix (Replaced_copy Hno Hr) w b Hw E) as (b' & ->).
      now exists [], b'.
    + injection E as <- E.
      destruct (IH w Hne Hw) as (a' & b' & ->); [now exists a, b|].
      now exists (c :: a'), b'.
  - destruct Ho as ([|x a] & b & E).
    + destruct w as [|y w]; [contradiction|]. injection E as <- _.
      pose proof blank_is_space as Hb. rewrite Hw in Hb by now left.
      discriminate.
    + injection E as <- E. apply occurs_in_app_r. apply IH; auto.
      now exists a, b.
Qed.

(** No token without whitespace is left where tokens were replaced. *)
Lemma replaced_leaves_none (tok : text -> Prop) s o :
  (forall w, tok w -> w <> [] /\ forall c, In c w -> isspace c = false) ->
  Replaced tok [32] s o ->
  forall w, tok w -> ~ occurs w o.
Proof.
  intros Htok. induction 1 as [| c s o Hno Hr IH | t rest o Ht Hr IH];
    intros w Hw Ho; destruct (Htok w Hw) as [Hne Hsp].
  - destruct Ho as (a & b & E). destruct a, w; try discriminate.
    contradiction.
  - destruct Ho as ([|x a] & b & E).
    + destruct (replaced_prefix (Replaced_copy Hno Hr) w b Hsp E) as (b' & E').
      now apply (Hno w b').
    + injection E as <- E. apply (IH w Hw). now exists a, b.
  - destruct Ho as ([|x a] & b & E).
    + destruct w as [|y w]; [contradiction|]. injection E as <- _.
      pose proof blank_is_space as Hb. rewrite Hsp in Hb by now left.
      discriminate.
    + injection E as <- E. apply (IH w Hw). now exists a, b.
Qed.

Lemma classes_nonspace_token r :
  classes_nonspace r -> (1 <= ReSem.min_len r)%nat ->
  forall w, ReSem.den r w -> w <> [] /\ forall c, In c w -> isspace c = false.
Proof.
  intros Hr Hm w Hw. split.
  - apply ReFacts.den_min_len in Hw. destruct w; [simpl in Hw; lia|discriminate].
  - now apply den_nonspace with (r := r).
Qed.

Lemma sub_blank_replaced r s :
  (1 <= ReSem.min_len r)%nat -> Replaced (ReSem.den r) [32] s (Re.sub r blank s).
Proof.
  intros Hm. apply sub_replaced; [reflexivity|].
  intros w Hw. apply ReFacts.den_min_len in Hw.
  destruct w; [simpl in Hw; lia | discriminate].
Qed.

(** A pattern found in a text has one of its texts in it. *)
Lemma search_occurs r s :
  Re.search r s = true -> exists w, ReSem.den r w /\ occurs w s.
Proof.
  induction s as [|c s IH]; [discriminate|]. cbn [Re.search].
  destruct (Re.match_at r (c :: s)) as [[[|n] gs]|] eqn:E.
  - intros H. destruct (IH H) as (w & Hw & Ho). exists w. split; auto.
    now apply (@occurs_in_app_r w [c] s).
  - intros _. apply ReFacts.match_at_sound in E as (w & s' & -> & Hd & _).
    exists w. split; auto. now exists [], s'.
  - intros H. destruct (IH H) as (w & Hw & Ho). exists w. split; auto.
    now apply (@occurs_in_app_r w [c] s).
Qed.

(** The first line of a text starts it. *)
Lemma splitlines_first :
  forall s l0 ls, splitlines_from false s = l0 :: ls -> exists rest, s = l0 ++ rest.
Proof.
  induction s as [|c s IH]; intros l0 ls E; [discriminate|].
  cbn [splitlines_from andb] in E. destruct (is_linebreak c).
  - injection E as <- _. now exists (c :: s).
  - destruct (splitlines_from false s) as [|l1 ls1] eqn:E1.
    + injection E as <- _. now exists s.
    + injection E as <- _. destruct (IH l1 ls1 eq_refl) as (rest & ->).
      now exists rest.
Qed.

(** Every line of a text occurs in it. *)
Lemma splitlines_occur :
  forall s b l, In l (splitlines_from b s) -> occurs l s.
Proof.
  induction s as [|c s IH]; intros b l Hl; [contradiction|].
  cbn [splitlines_from] in Hl.
  destruct (b && (c =? LF)).
  - apply (@occurs_in_app_r l [c] s). eapply IH; eauto.
  - destruct (is_linebreak c).
    + destruct Hl as [<- | Hl].
      * now exists [], (c :: s).
      * apply (@occurs_in_app_r l [c] s). eapply IH; eauto.
    + destruct (splitlines_from false s) as [|l0 ls] eqn:E.
      * destruct Hl as [<- | []]. exists [], s. reflexivity.
      * destruct Hl as [<- | Hl].
        -- destruct (splitlines_first s E) as (rest & ->).
           now exists [], rest.
        -- apply (@occurs_in_app_r l [c] s). apply (IH false).
           rewrite E. now right.
Qed.
End NoTokenLeft.

Lemma occurs_trans w l t : occurs w l -> occurs l t -> occurs w t.
Proof.
  intros (a & b & ->) (a' & b' & ->). exists (a' ++ a), (b ++ b').
  now rewrite <- !app_assoc.
Qed.

Section CleanedTokens.
Context {U : Unicode} {L : UnicodeLaws U}.

Lemma classes_nonspace_lit s r :
  (forall c, In c s -> isspace c = false) -> classes_nonspace r ->
  classes_nonspace (Re.Lit s r).
Proof.
  induction s as [|c s IH]; intros Hs Hr; [assumption|].
  cbn [Re.Lit classes_nonspace]. unfold Re.Chr. cbn [classes_nonspace]. split.
  - intros x Hx. apply N.eqb_eq in Hx. subst x. apply Hs. now left.
  - apply IH; auto. intros x Hx. apply Hs. now right.
Qed.

Lemma nonspace_class c : nonspace c = true -> isspace c = false.
Proof. unfold nonspace. now rewrite negb_true_iff. Qed.

Lemma email_nonspace : classes_nonspace email.
Proof.
  unfold email, Re.Chr. cbn [classes_nonspace].
  repeat split; try apply nonspace_class.
  intros c Hc. apply N.eqb_eq in Hc. subst c. now rewrite isspace_ascii.
Qed.

Lemma url_nonspace : classes_nonspace url.
Proof.
  unfold url. apply classes_nonspace_lit.
  - intros c Hc. rewrite isspace_ascii; simpl in Hc;
      repeat (destruct Hc as [<- | Hc]; [reflexivity|]); contradiction.
  - cbn [classes_nonspace]. split.
    + intros c Hc. apply N.eqb_eq in Hc. subst c. now rewrite isspace_ascii.
    + apply classes_nonspace_lit.
      * intros c Hc. rewrite isspace_ascii; simpl in Hc;
          repeat (destruct Hc as [<- | Hc]; [reflexivity|]); contradiction.
      * cbn [classes_nonspace]. apply nonspace_class.
Qed.

Lemma free_after_own r s :
  classes_nonspace r -> (1 <= ReSem.min_len r)%nat ->
  free_of r (Re.sub r blank s).
Proof.
  intros Hr Hm w Hw.
  apply (replaced_leaves_none (tok := ReSem.den r) (s := s)); auto.
  - now apply classes_nonspace_token.
  - now apply sub_blank_replaced.
Qed.

Lemma free_preserved r r' s :
  classes_nonspace r -> (1 <= ReSem.min_len r)%nat ->
  (1 <= ReSem.min_len r')%nat ->
  free_of r s -> free_of r (Re.sub r' blank s).
Proof.
  intros Hr Hm Hm' Hfree w Hw Ho. apply (Hfree w Hw).
  destruct (classes_nonspace_token Hr Hm Hw) as [Hne Hsp].
  apply (replaced_occurs (@sub_blank_replaced r' s Hm') Hne Hsp Ho).
Qed.

Lemma free_join r ls :
  classes_nonspace r -> (1 <= ReSem.min_len r)%nat ->
  (forall l, In l ls -> free_of r l) -> free_of r (join [LF] ls).
Proof.
  intros Hr Hm. induction ls as [|l ls IH]; intros Hls w Hw Ho.
  - destruct (classes_nonspace_token Hr Hm Hw) as [Hne _].
    destruct Ho as (a & b & E). destruct a, w; try discriminate.
    contradiction.
  - destruct ls as [|l2 ls].
    + apply (Hls l (or_introl eq_refl) w Hw Ho).
    + change (join [LF] (l :: l2 :: ls))
        with (l ++ LF :: join [LF] (l2 :: ls)) in Ho.
      destruct (classes_nonspace_token Hr Hm Hw) as [Hne Hsp].
      apply occurs_split in Ho as [Ho | Ho]; auto.
      * apply (Hls l (or_introl eq_refl) w Hw Ho).
      * apply (IH (fun l' Hl' => Hls l' (or_intror Hl')) w Hw Ho).
      * intros Hin. apply Hsp in Hin. now rewrite newline_is_space in Hin.
Qed.

Lemma free_not_found r t : free_of r t -> Re.search r t = false.
Proof.
  intros Hfree. destruct (Re.search r t) eqn:E; [|reflexivity].
  apply search_occurs in E as (w & Hw & Ho). now apply Hfree in Ho.
Qed.

Lemma strip_noise_free r x :
  classes_nonspace r -> (1 <= ReSem.min_len r)%nat ->
  free_of r (substitute (normalize_text x)) -> free_of r (strip_noise x).
Proof.
  intros Hr Hm Hfree. rewrite strip_noise_join. apply free_join; auto.
  intros l Hl w Hw Ho. apply filter_In in Hl as [Hl _].
  apply (Hfree w Hw). apply (occurs_trans Ho).
  now apply (splitlines_occur _ false).
Qed.
End CleanedTokens.

Lemma patterns_not_empty (U : Unicode) :
  (1 <= ReSem.min_len email)%nat /\ (1 <= ReSem.min_len url)%nat
  /\ (1 <= ReSem.min_len phone)%nat.
Proof.
  destruct (patterns_consume U) as (_ & -> & -> & -> & _). lia.
Qed.

(** X14: the cleaned text holds no e-mail-like token and no http(s) URL:
    neither pattern is found in it again. *)
Theorem cleaned_text_has_no_email_or_url :
  forall (U : Unicode), UnicodeLaws U ->
  forall x,
  Re.search email (strip_noise x) = false
  /\ Re.search url (strip_noise x) = false.
Proof.
  intros U L x. destruct (patterns_not_empty U) as (He & Hu & Hp).
  pose proof email_nonspace as Ne. pose proof url_nonspace as Nu.
  split; apply free_not_found, strip_noise_free; auto; unfold substitute.
  - apply free_preserved; auto. apply free_preserved; auto.
    now apply free_after_own.
  - apply free_preserved; auto. now apply free_after_own.
Qed.

(** A line with an address and a link, under the ASCII database. *)
Lemma cleaned_text_no_email_witness :
  @strip_noise ascii_unicode mail_and_link = str "write to   or see   today"
  /\ Re.search (@email ascii_unicode) (@strip_noise ascii_unicode mail_and_link)
     = false.
Proof.
  split; [reflexivity|].
  apply (@cleaned_text_has_no_email_or_url ascii_unicode ascii_laws
           mail_and_link).
Defined.

(* ================================================================= *)
(** ** Offsets past the end *)

(** X15: for an offset at or past the end of the text the line is the last
    line of the text and the column goes on counting from the last newline
    of the text: nothing is clamped and nothing fails. *)
Theorem idx_to_line_col_past_end :
  forall text idx, (len text <= idx)%Z ->
  _idx_to_line_col text idx =
    (newlines_in text + 1,
     idx - last_newline_before text (length text))%Z.
Proof.
  intros text idx H. pose proof (PyFacts.len_nonneg text) as Hn.
  assert (Hb : bound (len text) idx = len text).
  { unfold bound. destruct (Z.ltb_spec idx 0); lia. }
  unfold _idx_to_line_col, count, newlines_in.
  rewrite PyFacts.slice_0, Hb. unfold len at 1. rewrite Nat2Z.id, firstn_all.
  rewrite PyFacts.length_filter_eqb.
  assert (Hr : rfind text LF 0 idx = last_newline_before text (length text)).
  { rewrite <- (rfind_last_newline text (le_n (length text))).
    unfold rfind. rewrite !PyFacts.slice_0, Hb.
    now rewrite (@PyFacts.bound_inside (len text) (Z.of_nat (length text)))
      by (unfold len; lia). }
  rewrite Hr. f_equal. lia.
Qed.

(** Offset 20 of "abc\ndef\nghi" is reported on line 3, column 13. *)
Lemma idx_to_line_col_past_end_witness :
  _idx_to_line_col abc_def_ghi 20 = (3, 13)%Z.
Proof.
  apply (@idx_to_line_col_past_end abc_def_ghi 20%Z). vm_compute. discriminate.
Defined.
